(** * Email2Telegram: a shallow embedding of the intake-and-routing pipeline

    The development follows the JavaScript sources:
    - [utils/whitelistManager.js]  allow-list store ([isWhitelisted]);
    - [utils/topicManager.js]      routing store ([getTopicForEmail]);
    - [utils/fileUtils.js]         retention sweep ([cleanupOldFiles]);
    - [utils/pdfConverter.js]      document renderer ([convertEmailToPdf]);
    - [services/emailService.js]   mailbox watcher and per-message handler.

    JavaScript strings are sequences of UTF-16 code units; they are modelled
    as [list N].  Definitions come first, the lemmas and theorems about them
    follow in the second half of the file. *)

From Stdlib Require Import String Ascii.
From stdpp Require Import prelude gmap.

Local Open Scope N_scope.

(* ===================================================================== *)
(** * Part I: definitions                                                  *)
(* ===================================================================== *)

(** ** JavaScript strings *)

Abbreviation str := (list N).

(** An ASCII literal of the source as code units. *)
Definition lit (s : string) : str :=
  map N_of_ascii (list_ascii_of_string s).

Definition AT : N := 64.      (* '@' *)
Definition NL : N := 10.      (* '\n' *)
Definition SP : N := 32.      (* ' ' *)

(** [String.prototype.startsWith]. *)
Fixpoint startsWith (p s : str) : bool :=
  match p, s with
  | [], _ => true
  | _ :: _, [] => false
  | a :: p', b :: s' => (a =? b) && startsWith p' s'
  end.

(** [String.prototype.includes]: [p] starts at some index of [s]. *)
Fixpoint includes (p s : str) : bool :=
  startsWith p s ||
  match s with
  | [] => false
  | _ :: s' => includes p s'
  end.

(** [String.prototype.split] for a non-empty separator.  [split_from sep
    skip s] returns the segment under construction and the segments after
    it; [skip] counts the units of a separator occurrence still to be
    jumped over, so that occurrences are found left to right without
    overlap. *)
Fixpoint split_from (sep : str) (skip : nat) (s : str) : str * list str :=
  match s with
  | [] => ([], [])
  | c :: s' =>
      match skip with
      | S k => split_from sep k s'
      | O =>
          if startsWith sep s
          then ([], let '(h, t) := split_from sep (length sep - 1) s' in h :: t)
          else let '(h, t) := split_from sep 0 s' in (c :: h, t)
      end
  end.

Definition split (sep s : str) : list str :=
  let '(h, t) := split_from sep 0 s in h :: t.

(** [parts[i]] of an array of strings; reading past the end gives
    [undefined], which the callers below never do (they test the length
    first). *)
Definition part (i : nat) (parts : list str) : str := nth i parts [].

(** [String.prototype.toLowerCase], unit by unit, for the letters of the
    Basic Latin, Latin-1 and Cyrillic blocks; every other code unit is left
    as it is. *)
Definition lower_unit (c : N) : N :=
  if (65 <=? c) && (c <=? 90) then c + 32                       (* A-Z *)
  else if (192 <=? c) && (c <=? 222) && negb (c =? 215) then c + 32
  else if (1040 <=? c) && (c <=? 1071) then c + 32             (* U+0410..042F *)
  else if (1024 <=? c) && (c <=? 1039) then c + 80             (* U+0400..040F *)
  else c.

Definition toLowerCase (s : str) : str := map lower_unit s.

(** Truthiness of a string: the empty string is falsy. *)
Definition truthy (s : str) : bool :=
  match s with [] => false | _ => true end.

(** White space of [\s] in a regular expression and of
    [String.prototype.trim] (WhiteSpace and LineTerminator code units). *)
Definition is_space (c : N) : bool :=
  ((9 <=? c) && (c <=? 13)) || (c =? 32) || (c =? 160) || (c =? 5760)
  || ((8192 <=? c) && (c <=? 8202)) || (c =? 8232) || (c =? 8233)
  || (c =? 8239) || (c =? 8287) || (c =? 12288) || (c =? 65279).

Fixpoint trimStart (s : str) : str :=
  match s with
  | c :: s' => if is_space c then trimStart s' else s
  | [] => []
  end.

Definition trim (s : str) : str := rev (trimStart (rev (trimStart s))).

(** ** Allow-list store: utils/whitelistManager.js *)

(** [isDomainWildcard]: the pattern starts with [*@] and has exactly one
    ['@']. *)
Definition isDomainWildcard (pattern : str) : bool :=
  startsWith (lit "*@") pattern
  && bool_decide (length (split [AT] pattern) = 2%nat).

(** [matchesDomainWildcard]. *)
Definition matchesDomainWildcard (email pattern : str) : bool :=
  if negb (truthy email) || negb (truthy pattern)
     || negb (isDomainWildcard pattern)
  then false
  else
    let emailParts := split [AT] email in
    if negb (bool_decide (length emailParts = 2%nat)) then false
    else
      let patternDomain := toLowerCase (part 1 (split [AT] pattern)) in
      let emailDomain := toLowerCase (part 1 emailParts) in
      bool_decide (emailDomain = patternDomain).

(** [isWhitelisted], as a function of the list that [getWhitelist] returns.
    The [for ... of] loop with its early [return true] is [existsb]. *)
Definition isWhitelisted (whitelist : list str) (email : str) : bool :=
  if bool_decide (length whitelist = 0%nat) then true
  else if bool_decide (email ∈ whitelist) then true
  else
    let domainWildcards := filter (fun p => isDomainWildcard p = true) whitelist in
    existsb (matchesDomainWildcard email) domainWildcards.

(** ** Routing store: utils/topicManager.js *)

(** The record kept in [topic_settings.json]: [defaultTopic] is a number or
    [null], [topicMappings] an object used as a map from pattern to topic
    id.  Topic ids are JSON integers. *)
Record settings := {
  defaultTopic : option Z;
  topicMappings : gmap str Z
}.

Definition DEFAULT_SETTINGS : settings :=
  {| defaultTopic := None; topicMappings := ∅ |}.

Definition getDefaultTopic (s : settings) : option Z := defaultTopic s.

(** [getTopicForEmail].  [email.split('@')[1]] is [undefined] when the
    address has no ['@']; the guard [domain && ...] then fails, as it does
    for an empty domain. *)
Definition getTopicForEmail (s : settings) (email : str) : option Z :=
  if negb (truthy email) then getDefaultTopic s
  else
    let email := toLowerCase email in
    match topicMappings s !! email with
    | Some t => Some t
    | None =>
        match split [AT] email !! 1%nat with
        | Some domain =>
            if truthy domain then
              match topicMappings s !! (lit "*@" ++ domain) with
              | Some t => Some t
              | None => defaultTopic s
              end
            else defaultTopic s
        | None => defaultTopic s
        end
    end.

(** [parseInt(s, 10)] on a string: leading white space, an optional sign,
    then the longest run of decimal digits; [None] is [NaN]. *)
Definition is_digit (c : N) : bool := (48 <=? c) && (c <=? 57).

Fixpoint digits_value (acc : Z) (s : str) : Z :=
  match s with
  | c :: s' =>
      if is_digit c then digits_value (10 * acc + Z.of_N (c - 48)) s' else acc
  | [] => acc
  end.

Definition parseInt (s : str) : option Z :=
  let s := trimStart s in
  let '(sign, s) :=
    match s with
    | 45 :: r => ((-1)%Z, r)
    | 43 :: r => (1%Z, r)
    | _ => (1%Z, s)
    end in
  match s with
  | c :: _ => if is_digit c then Some (sign * digits_value 0 s)%Z else None
  | [] => None
  end.

(** [isValidTopicId]. *)
Definition isValidTopicId (topicId : str) : bool :=
  match parseInt topicId with
  | Some n => (0 <? n)%Z
  | None => false
  end.

(** [setTopicForEmail]: the settings after the call and its [success] flag.
    [saved] tells whether [saveTopicSettings] managed to write the file. *)
Definition setTopicForEmail (saved : bool) (s : settings)
    (emailOrPattern topicId : str) : bool * settings :=
  if negb (truthy emailOrPattern) then (false, s)
  else
    match parseInt topicId with
    | Some n =>
        if (0 <? n)%Z then
          let emailOrPattern := toLowerCase emailOrPattern in
          let s' := {| defaultTopic := defaultTopic s;
                       topicMappings := <[emailOrPattern := n]> (topicMappings s) |} in
          if saved then (true, s') else (false, s)
        else (false, s)
    | None => (false, s)
    end.

(** ** Regular expressions of the sources

    The patterns used by the sources are sequences of character classes,
    each taken once or repeated greedily at least [least] times.  Matching
    backtracks as the JavaScript engine does: a repetition first takes as
    many units as it can and gives them back one at a time while the rest of
    the pattern fails. *)
Inductive atom :=
  | One (p : N -> bool)
  | Many (p : N -> bool) (least : nat).

Definition stop_here (k : str -> option str) (least : nat) (s : str)
    : option str :=
  match least with
  | O => k s
  | S _ => None
  end.

Fixpoint greedy (p : N -> bool) (k : str -> option str) (least : nat)
    (s : str) : option str :=
  match s with
  | c :: s' =>
      if p c then
        match greedy p k (pred least) s' with
        | Some r => Some r
        | None => stop_here k least s
        end
      else stop_here k least s
  | [] => stop_here k least s
  end.

(** [match_here re s]: the input left after the match of [re] at the start
    of [s], if there is one. *)
Fixpoint match_here (re : list atom) (s : str) : option str :=
  match re with
  | [] => Some s
  | One p :: re' =>
      match s with
      | c :: s' => if p c then match_here re' s' else None
      | [] => None
      end
  | Many p least :: re' => greedy p (match_here re') least s
  end.

(** [String.prototype.match] without the [g] flag: the leftmost match. *)
Fixpoint exec (re : list atom) (s : str) : option str :=
  match match_here re s with
  | Some rest => Some (take (length s - length rest) s)
  | None =>
      match s with
      | [] => None
      | _ :: s' => exec re s'
      end
  end.

(** [String.prototype.replace] with the [g] flag; [sub] builds the
    replacement from the matched text.  [skip] counts the units of the
    current match still to be jumped over.  After an empty match the
    engine moves one unit ahead (none of the patterns below matches the
    empty string). *)
Fixpoint replace_from (re : list atom) (sub : str -> str) (skip : nat)
    (s : str) : str :=
  match s with
  | [] => []
  | c :: s' =>
      match skip with
      | S k => replace_from re sub k s'
      | O =>
          match match_here re s with
          | Some rest =>
              let n := (length s - length rest)%nat in
              match n with
              | O => sub [] ++ c :: replace_from re sub 0 s'
              | S k => sub (take n s) ++ replace_from re sub k s'
              end
          | None => c :: replace_from re sub 0 s'
          end
      end
  end.

Definition replace (re : list atom) (sub : str -> str) (s : str) : str :=
  replace_from re sub 0 s.

(** ** Parsed mail *)

(** An address record of the parser; an absent [name] or [address] is the
    empty string (both are only tested for truthiness or printed). *)
Record mailbox := { name : str; address : str }.

Inductive addr :=
  | AddrString (s : str)
  | AddrObject (m : mailbox).

(** A [from], [to] or [cc] field: absent, a single value, or an array. *)
Inductive addr_field :=
  | Absent
  | Single (a : addr)
  | Several (l : list addr).

(** An attachment of the parser; absent strings are empty. *)
Record attachment := {
  fileName : str;
  byteLength : N;
  contentId : str;
  contentType : str;
  content : option (list N)
}.

Record mail := {
  from : addr_field;
  to : addr_field;
  cc : addr_field;
  subject : option str;
  text : option str;
  html : option str;
  date : option N;
  attachments : list attachment
}.

(** [x || fallback] on an optional string. *)
Definition or_else (x : option str) (fallback : str) : str :=
  match x with
  | Some (c :: s) => c :: s
  | _ => fallback
  end.

(** ** Sender extraction: services/emailService.js *)

(** [/<([^>]+)>/] and [/([^\s]+@[^\s]+)/]. *)
Definition re_angle : list atom :=
  [One (N.eqb 60); Many (fun c => negb (c =? 62)) 1; One (N.eqb 62)].

Definition re_address : list atom :=
  [Many (fun c => negb (is_space c)) 1; One (N.eqb AT);
   Many (fun c => negb (is_space c)) 1].

(** The string case of [extractSenderEmail]; [match[1]] of the first
    pattern is the match without its two brackets. *)
Definition senderOfString (from : str) : str :=
  if negb (truthy from) then []
  else
    match exec re_angle from with
    | Some m => toLowerCase (removelast (tail m))
    | None =>
        match exec re_address from with
        | Some m => toLowerCase m
        | None => toLowerCase from
        end
    end.

Definition extractSenderEmail (from : addr_field) : str :=
  match from with
  | Absent => []
  | Single (AddrString s) => senderOfString s
  | Single (AddrObject m) =>
      if truthy (address m) then toLowerCase (address m) else []
  | Several [] => []
  | Several (AddrString s :: _) => senderOfString s
  | Several (AddrObject m :: _) =>
      if truthy (address m) then toLowerCase (address m) else []
  end.

(** ** Forwarded-message comment: services/emailService.js *)

Definition dashes (n : nat) : str := repeat 45 n.

(** The five markers, in the order of the source array. *)
Definition markers : list str :=
  [ dashes 10 ++ lit " Forwarded message " ++ dashes 9;
    dashes 10 ++ lit " Forwarded Message " ++ dashes 10;
    dashes 10 ++ lit " Forwarded message " ++ dashes 10;
    dashes 10 ++ [SP; 1055; 1077; 1088; 1077; 1089; 1083; 1072; 1085; 1085;
                  1086; 1077; SP; 1089; 1086; 1086; 1073; 1097; 1077; 1085;
                  1080; 1077; SP] ++ dashes 9;
    dashes 10 ++ [SP; 1055; 1077; 1088; 1077; 1089; 1099; 1083; 1072; 1077;
                  1084; 1086; 1077; SP; 1089; 1086; 1086; 1073; 1097; 1077;
                  1085; 1080; 1077; SP] ++ dashes 9 ].

Definition is_nl (c : N) : bool := c =? NL.

(** [[^\.\,\:\;\!\?\n]]. *)
Definition no_break (c : N) : bool :=
  negb ((c =? 46) || (c =? 44) || (c =? 58) || (c =? 59) || (c =? 33)
        || (c =? 63) || (c =? NL)).

(** [[a-z\u0430-\u044f\u0451]] under the [i] flag: a unit matches when its
    upper-case form is the upper-case form of a member of the class, which
    adds A-Z, U+0410..U+042F, U+0401 and the seven units U+1C80..U+1C86
    whose upper-case forms lie in U+0410..U+042F. *)
Definition is_letter (c : N) : bool :=
  ((65 <=? c) && (c <=? 90)) || ((97 <=? c) && (c <=? 122))
  || ((1040 <=? c) && (c <=? 1103)) || (c =? 1025) || (c =? 1105)
  || ((7296 <=? c) && (c <=? 7302)).

(** The four rewriting passes, in the order of the source. *)
Definition re_breaks : list atom :=          (* /\n\s*\n\s*\n+/g *)
  [One is_nl; Many is_space 0; One is_nl; Many is_space 0; Many is_nl 1].
Definition re_wrapped : list atom :=         (* /([^.,:;!?\n])\n([a-z...])/gi *)
  [One no_break; One is_nl; One is_letter].
Definition re_indent : list atom :=          (* /\n\s+/g *)
  [One is_nl; Many is_space 1].
Definition re_spaces : list atom :=          (* /\s{2,}/g *)
  [Many is_space 2].

(** ['$1 $2'] for a match of [re_wrapped], which has three units. *)
Definition join_wrapped (m : str) : str :=
  match m with
  | [a; _; b] => [a; SP; b]
  | _ => m
  end.

Definition normalise (textBefore : str) : str :=
  let textBefore := replace re_breaks (fun _ => [NL; NL]) textBefore in
  let textBefore := replace re_wrapped join_wrapped textBefore in
  let textBefore := replace re_indent (fun _ => [NL]) textBefore in
  replace re_spaces (fun _ => [SP]) textBefore.

(** The loop over the markers: the first marker of the array that the text
    includes decides; [break] leaves the loop and the function returns
    [null]. *)
Fixpoint scan_markers (ms : list str) (t : str) : option str :=
  match ms with
  | [] => None
  | marker :: rest =>
      if includes marker t then
        let parts := split marker t in
        if bool_decide (1 < length parts)%nat then
          let textBefore := trim (part 0 parts) in
          if truthy textBefore then Some (normalise textBefore) else None
        else None
      else scan_markers rest t
  end.

Definition extractForwardedText (m : mail) : option str :=
  match text m with
  | None => None
  | Some t => if negb (truthy t) then None else scan_markers markers t
  end.

(** ** Document renderer, pure part: utils/pdfConverter.js *)

Definition QUOT : N := 34.    (* the double quote *)

(** Template text of the source, with the double quote written as a
    backquote (which the templates do not contain). *)
Definition tpl (s : string) : str :=
  map (fun c => if c =? 96 then QUOT else c) (lit s).

(** Decimal digits of a number, most significant first. *)
Fixpoint decimal_from (fuel : nat) (n : N) (acc : str) : str :=
  let acc := (48 + n mod 10) :: acc in
  match fuel with
  | O => acc
  | S fuel' => if n <? 10 then acc else decimal_from fuel' (n / 10) acc
  end.

Definition decimal (n : N) : str := decimal_from (N.to_nat (N.log2 n)) n [].

(** What the platform provides: date formatting in the locale of the
    process, the clock, the size formatter [formatBytes] (floating-point
    logarithms and [toFixed]), base64 and [new RegExp(source, 'g')]
    replacement. *)
Record runtime := {
  toLocaleString : N -> str;
  Date_now : N;
  formatBytes : N -> str;
  base64 : list N -> str;
  regexp_replace : str -> str -> str -> str
}.

(** [escapeHtml]: five global replacements, one after the other. *)
Definition replace_unit (c : N) (by_ : str) (s : str) : str :=
  replace [One (N.eqb c)] (fun _ => by_) s.

Definition escapeHtml (text : str) : str :=
  if negb (truthy text) then []
  else
    replace_unit 39 (lit "&#039;")
      (replace_unit QUOT (lit "&quot;")
        (replace_unit 62 (lit "&gt;")
          (replace_unit 60 (lit "&lt;")
            (replace_unit 38 (lit "&amp;") text)))).

(** [name ? `${name} <${address}>` : address]. *)
Definition formatMailbox (m : mailbox) : str :=
  if truthy (name m) then name m ++ lit " <" ++ address m ++ lit ">"
  else address m.

(** [formatSender].  A string element of an array has neither [name] nor
    [address], so the function returns [undefined] for it, which
    [escapeHtml] turns into the empty string. *)
Definition formatSender (from : addr_field) : str :=
  match from with
  | Absent => lit "Unknown"
  | Single (AddrString s) => if truthy s then s else lit "Unknown"
  | Single (AddrObject m) =>
      if truthy (address m) then formatMailbox m else lit "Unknown"
  | Several [] => lit "Unknown"
  | Several (AddrString s :: _) => if truthy s then [] else lit "Unknown"
  | Several (AddrObject m :: _) => formatMailbox m
  end.

Fixpoint join (sep : str) (l : list str) : str :=
  match l with
  | [] => []
  | [x] => x
  | x :: l' => x ++ sep ++ join sep l'
  end.

(** [formatRecipients]. *)
Definition formatRecipients (recipients : addr_field) : str :=
  match recipients with
  | Absent => []
  | Single (AddrString s) => s
  | Single (AddrObject _) => []
  | Several l =>
      join (lit ", ")
        (map (fun r => match r with
                       | AddrString s => s
                       | AddrObject m => formatMailbox m
                       end) l)
  end.

(** Truthiness of a field such as [email.cc]: an array, even an empty one,
    and an object are truthy. *)
Definition present (f : addr_field) : bool :=
  match f with
  | Absent => false
  | Single (AddrString s) => truthy s
  | _ => true
  end.

(** The interpolations of the two templates. *)
Inductive hole :=
  | Subject | Sender | Recipients | CarbonCopy | DateLine | Body | PlainBody
  | Attachments.

Inductive piece :=
  | Static (s : str)
  | Fill (h : hole).

Definition attachmentsList (rt : runtime) (atts : list attachment) : str :=
  concat (map (fun att =>
    lit "<li>" ++ (if truthy (fileName att) then fileName att else lit "Attachment")
    ++ lit " (" ++ formatBytes rt (byteLength att) ++ lit ")</li>") atts).

Definition fill (rt : runtime) (email : mail) (h : hole) : str :=
  match h with
  | Subject => escapeHtml (or_else (subject email) (lit "No Subject"))
  | Sender => escapeHtml (formatSender (from email))
  | Recipients => escapeHtml (formatRecipients (to email))
  | CarbonCopy =>
      if present (cc email)
      then tpl "<div class=`email-meta`><strong>Cc:</strong> "
           ++ escapeHtml (formatRecipients (cc email)) ++ lit "</div>"
      else []
  | DateLine => toLocaleString rt (default (Date_now rt) (date email))
  | Body =>
      match html email with
      | Some (c :: h) => c :: h
      | _ => replace_unit NL (lit "<br>") (escapeHtml (or_else (text email) []))
      end
  | PlainBody => escapeHtml (or_else (text email) [])
  | Attachments =>
      match attachments email with
      | [] => []
      | atts =>
          tpl "
        <div class=`email-attachments`>
          <h4>Attachments (" ++ decimal (N.of_nat (length atts))
          ++ tpl "):</h4>
          <ul>" ++ attachmentsList rt atts ++ tpl "</ul>
        </div>"
      end
  end.

Definition instantiate (rt : runtime) (email : mail) (p : piece) : str :=
  match p with
  | Static s => s
  | Fill h => fill rt email h
  end.

Definition simpleTemplate : list piece :=
  [ Static (tpl "
    <!DOCTYPE html>
    <html>
    <head>
      <meta charset=`utf-8`>
      <title>");
    Fill Subject;
    Static (tpl "</title>
      <style>
        body { font-family: Arial, sans-serif; padding: 20px; }
        pre { white-space: pre-wrap; }
      </style>
    </head>
    <body>
      <h2>");
    Fill Subject;
    Static (tpl "</h2>
      <p><strong>From:</strong> ");
    Fill Sender;
    Static (tpl "</p>
      <p><strong>To:</strong> ");
    Fill Recipients;
    Static (tpl "</p>
      <p><strong>Date:</strong> ");
    Fill DateLine;
    Static (tpl "</p>
      <hr>
      <pre>");
    Fill PlainBody;
    Static (tpl "</pre>
    </body>
    </html>
  ") ].

Definition emailTemplate : list piece :=
  [ Static (tpl "
    <!DOCTYPE html>
    <html>
    <head>
      <meta charset=`utf-8`>
      <title>");
    Fill Subject;
    Static (tpl "</title>
      <style>
        body {
          font-family: Arial, sans-serif;
          line-height: 1.6;
          margin: 0;
          padding: 20px;
          color: #333;
        }
        .email-container {
          max-width: 800px;
          margin: 0 auto;
          border: 1px solid #ddd;
          border-radius: 5px;
          overflow: hidden;
        }
        .email-header {
          background-color: #f5f5f5;
          padding: 15px;
          border-bottom: 1px solid #ddd;
        }
        .email-subject {
          margin: 0 0 10px 0;
          font-size: 20px;
          color: #333;
        }
        .email-meta {
          font-size: 14px;
          color: #666;
          margin-bottom: 5px;
        }
        .email-body {
          padding: 20px;
          background-color: white;
        }
        .email-attachments {
          padding: 15px;
          background-color: #f9f9f9;
          border-top: 1px solid #ddd;
        }
        .email-attachments h4 {
          margin-top: 0;
        }
      </style>
    </head>
    <body>
      <div class=`email-container`>
        <div class=`email-header`>
          <h1 class=`email-subject`>");
    Fill Subject;
    Static (tpl "</h1>
          <div class=`email-meta`>
            <strong>From:</strong> ");
    Fill Sender;
    Static (tpl "
          </div>
          <div class=`email-meta`>
            <strong>To:</strong> ");
    Fill Recipients;
    Static (tpl "
          </div>
          ");
    Fill CarbonCopy;
    Static (tpl "
          <div class=`email-meta`>
            <strong>Date:</strong> ");
    Fill DateLine;
    Static (tpl "
          </div>
        </div>
        <div class=`email-body`>
          ");
    Fill Body;
    Static (tpl "
        </div>
        ");
    Fill Attachments;
    Static (tpl "
      </div>
    </body>
    </html>
  ") ].

(** [createSimpleTextEmail] and [createEmailHtml]. *)
Definition createSimpleTextEmail (rt : runtime) (email : mail) : str :=
  concat (map (instantiate rt email) simpleTemplate).

Definition createEmailHtml (rt : runtime) (email : mail) : str :=
  concat (map (instantiate rt email) emailTemplate).

(** [processEmailContent]: every inline attachment that has content
    replaces the references [cid:<id>] by a data URL. *)
Definition processEmailContent (rt : runtime) (email : mail) : str :=
  fold_left (fun htmlContent att =>
    if truthy (contentId att) then
      let cid := replace [One (fun c => (c =? 60) || (c =? 62))]
                         (fun _ => []) (contentId att) in
      match content att with
      | Some bytes =>
          let dataUrl := lit "data:" ++ contentType att ++ lit ";base64,"
                         ++ base64 rt bytes in
          regexp_replace rt (lit "cid:" ++ cid) dataUrl htmlContent
      | None => htmlContent
      end
    else htmlContent) (attachments email) (createEmailHtml rt email).

(** ** Effects: exceptions, external calls and the console

    A computation threads a [world]: the outcomes of the external calls
    still to come, in the order in which the calls are made ([None]: the
    call succeeds; a call beyond the end of the list succeeds), and the
    trace of what has happened so far. *)

Inductive js_error :=
  | JsError (message : str)
  | ReferenceError (identifier : string).

(** [error.message]. *)
Definition message (e : js_error) : str :=
  match e with
  | JsError m => m
  | ReferenceError x => lit x ++ lit " is not defined"
  end.

Inductive outcome (A : Type) :=
  | Return (a : A)
  | Throw (e : js_error).
Arguments Return {A} a.
Arguments Throw {A} e.

(** The third argument of [sendDocument]. *)
Record options := {
  caption : str;
  message_thread_id : option Z
}.

Record request := {
  chatId : str;
  source : str;           (* path of the file that is streamed *)
  filename : str;
  extra : options
}.

(** Which of the two pages printed a PDF buffer. *)
Inductive rendering := Rich | Simple.

Inductive call :=
  | Launch
  | NewPage
  | SetRequestInterception
  | SetContent (htmlContent : str) (waitUntil : string)
  | WaitForTimeout (ms : N)
  | Pdf (printBackground : bool)
  | Close
  | WriteFile (path : str)
  | SendDocument (r : request).

(** A call is recorded with the error it raised, if any. *)
Inductive event :=
  | Called (c : call) (raised : option js_error)
  | ConsoleError (label : string) (e : js_error)
  | ConsoleLog (label : string).

Record world := {
  responses : list (option js_error);
  trace : list event
}.

Definition M (A : Type) : Type := world -> outcome A * world.

Definition ret {A} (a : A) : M A := fun w => (Return a, w).

Definition throw {A} (e : js_error) : M A := fun w => (Throw e, w).

Definition bind {A B} (m : M A) (k : A -> M B) : M B :=
  fun w =>
    match m w with
    | (Return a, w') => k a w'
    | (Throw e, w') => (Throw e, w')
    end.

#[global] Instance M_ret : MRet M := @ret.
#[global] Instance M_bind : MBind M := fun A B k m => bind m k.

(** [try { body } catch (e) { handler e }]. *)
Definition try_catch {A} (body : M A) (handler : js_error -> M A) : M A :=
  fun w =>
    match body w with
    | (Return a, w') => (Return a, w')
    | (Throw e, w') => handler e w'
    end.

(** [try { body } finally { cleanup }]: an exception of [cleanup] replaces
    the result of [body]. *)
Definition try_finally {A} (body : M A) (cleanup : M unit) : M A :=
  fun w =>
    let '(r, w') := body w in
    match cleanup w' with
    | (Return _, w'') => (r, w'')
    | (Throw e, w'') => (Throw e, w'')
    end.

Definition emit (ev : event) : M unit :=
  fun w => (Return tt, {| responses := responses w; trace := trace w ++ [ev] |}).

(** An awaited call to a collaborator (browser, file system, messaging
    client): it is recorded, and the next outcome of the world decides
    whether it throws. *)
Definition await (c : call) : M unit :=
  fun w =>
    let w' raised r :=
      {| responses := r; trace := trace w ++ [Called c raised] |} in
    match responses w with
    | Some e :: r => (Throw e, w' (Some e) r)
    | None :: r => (Return tt, w' None r)
    | [] => (Return tt, w' None [])
    end.

(** ** Document renderer: utils/pdfConverter.js, [convertEmailToPdf]

    The registration of the request handler and
    [setDefaultNavigationTimeout] are synchronous settings of the page
    object and are not recorded. *)

Definition primaryPath (rt : runtime) (email : mail) : M rendering :=
  await NewPage;;
  let htmlContent := processEmailContent rt email in
  await SetRequestInterception;;
  await (SetContent htmlContent "networkidle2");;
  await (WaitForTimeout 2000);;
  await (Pdf true);;
  ret Rich.

Definition fallbackPath (rt : runtime) (email : mail) : M rendering :=
  emit (ConsoleLog "Attempting fallback to simple PDF generation...");;
  await NewPage;;
  let textContent := createSimpleTextEmail rt email in
  await (SetContent textContent "domcontentloaded");;
  await (Pdf false);;
  ret Simple.

Definition convertEmailToPdf (rt : runtime) (email : mail) : M rendering :=
  await Launch;;
  try_finally
    (try_catch (primaryPath rt email)
       (fun error =>
          emit (ConsoleError "Error generating PDF:" error);;
          try_catch (fallbackPath rt email)
            (fun fallbackError =>
               emit (ConsoleError "Fallback PDF generation failed:" fallbackError);;
               throw error)))
    (await Close).

(** ** Per-message handler: services/emailService.js, lines 175-292 *)

Record env := {
  whitelist : list str;            (* what [getWhitelist] returns *)
  topics : settings;               (* what [getTopicSettings] returns *)
  TELEGRAM_CHAT_ID : str;
  bot_initialised : bool;          (* [telegramBot && telegramBot.telegram] *)
  uploadDir : str;
  platform : runtime
}.

(** Block scoping.  A [const] or [let] declaration belongs to the block
    that contains it; an identifier that no enclosing block, function or
    module declares, and that the global object does not have, raises a
    [ReferenceError] when it is read.  A scope lists the identifiers that
    can be read at a program point, innermost first. *)
Inductive value :=
  | VStr (s : str)
  | VOptions (o : options)
  | VOther.

Definition scope := list (string * value).

Fixpoint resolve (x : string) (sc : scope) : option value :=
  match sc with
  | [] => None
  | (y, v) :: sc' => if String.eqb x y then Some v else resolve x sc'
  end.

Definition identifier (sc : scope) (x : string) : M value :=
  match resolve x sc with
  | Some v => ret v
  | None => throw (ReferenceError x)
  end.

(** Declarations of the module, of [processNewEmails] and of its nested
    callbacks, down to the parameter [mail] of the handler. *)
Definition enclosing_scope : scope :=
  map (fun x => (x, VOther))
    [ "mail"; "parser"; "msg"; "seqno"; "fetch"; "err"; "results"; "box";
      "imap"; "yesterday"; "yesterdayDate"; "telegramBot";
      "nodemailer"; "convertEmailToPdf"; "saveFile"; "isWhitelisted";
      "getTopicForEmail"; "Imap"; "MailParser"; "fs"; "DEBUG"; "debug";
      "setupEmailListener"; "processNewEmails"; "extractSenderEmail";
      "extractForwardedText" ]%string.

(** The [const] declarations of the outer [try] block of the handler
    (lines 178-210). *)
Definition handler_scope (senderEmail filename filePath : str) : scope :=
  [ ("senderEmail", VStr senderEmail); ("forwardedText", VOther);
    ("pdfBuffer", VOther); ("filename", VStr filename);
    ("filePath", VStr filePath); ("topicId", VOther) ]%string
  ++ enclosing_scope.

(** The caption (lines 222-227) and the options (lines 229-245).  The
    topic id is a JSON integer, which [parseInt(topicId, 10)] reads back
    unchanged. *)
Definition captionOf (senderEmail : str) (email : mail)
    (forwardedText : option str) : str :=
  let caption := lit "Email " ++ [1086; 1090; SP] ++ senderEmail ++ lit ": "
                 ++ or_else (subject email) (lit "No Subject") in
  match forwardedText with
  | Some (c :: t) => caption ++ [NL; NL] ++ c :: t
  | _ => caption
  end.

Definition optionsOf (caption : str) (topicId : option Z) : options :=
  {| caption := caption;
     message_thread_id :=
       match topicId with
       | Some validTopicId =>
           if (0 <? validTopicId)%Z then Some validTopicId else None
       | None => None
       end |}.

(** What the inner [try] block (lines 215-257) declares on top of the
    handler's scope: [chatId], [caption] and [options]. *)
Definition try_block_scope (chat caption : str) (opts : options)
    (outer : scope) : scope :=
  [ ("options", VOptions opts); ("caption", VStr caption);
    ("chatId", VStr chat) ]%string ++ outer.

(** The [catch (telegramError)] clause (lines 258-287) sees the handler's
    scope and its own parameter, not the declarations of the [try] block. *)
Definition catch_scope (outer : scope) : scope :=
  ("telegramError"%string, VOther) :: outer.

(** The inner [try] block. *)
Definition sendBlock (e : env) (email : mail) (senderEmail : str)
    (forwardedText : option str) (filePath filename : str)
    (topicId : option Z) : M unit :=
  let chat := TELEGRAM_CHAT_ID e in
  if negb (bot_initialised e)
  then throw (JsError (lit "Telegram bot not initialized properly"))
  else
    let caption := captionOf senderEmail email forwardedText in
    let opts := optionsOf caption topicId in
    await (SendDocument {| chatId := chat; source := filePath;
                           filename := filename; extra := opts |});;
    emit (ConsoleLog "processed and sent to Telegram").

(** The body of the [catch (telegramError)] clause, for the scope [sc] in
    which its identifiers are resolved.  The operands of [&&] are
    evaluated left to right, so [options] is read only for an error whose
    message mentions the missing thread. *)
Definition catchBlock (sc : scope) (filePath filename : str)
    (telegramError : js_error) : M unit :=
  emit (ConsoleError "Error sending document to Telegram:" telegramError);;
  if truthy (message telegramError)
     && includes (lit "message thread not found") (message telegramError)
  then
    opts ← identifier sc "options";
    match opts with
    | VOptions opts =>
        match message_thread_id opts with
        | Some thread =>
            if bool_decide (thread ≠ 0%Z) then
              try_catch
                (let fallbackOptions :=
                   {| caption := caption opts; message_thread_id := None |} in
                 chat ← identifier sc "chatId";
                 match chat with
                 | VStr chat =>
                     await (SendDocument {| chatId := chat; source := filePath;
                                            filename := filename;
                                            extra := fallbackOptions |});;
                     emit (ConsoleLog "sent to Telegram (without topic)")
                 | _ => ret tt
                 end)
                (fun fallbackError =>
                   emit (ConsoleError
                           "Error sending document to Telegram (fallback):"
                           fallbackError))
            else ret tt
        | None => ret tt
        end
    | _ => ret tt
    end
  else ret tt.

(** The handler of the parser's [end] event. *)
Definition onMail (e : env) (email : mail) : M unit :=
  try_catch
    (let senderEmail := extractSenderEmail (from email) in
     emit (ConsoleLog "Received email from:");;
     if negb (isWhitelisted (whitelist e) senderEmail)
     then emit (ConsoleLog "is not whitelisted. Ignoring.")
     else
       emit (ConsoleLog "Processing email:");;
       let forwardedText := extractForwardedText email in
       pdfBuffer ← convertEmailToPdf (platform e) email;
       let filename := lit "email_" ++ decimal (Date_now (platform e))
                       ++ lit ".pdf" in
       let filePath := uploadDir e ++ lit "/" ++ filename in
       await (WriteFile filePath);;
       let topicId := getTopicForEmail (topics e) senderEmail in
       let outer := handler_scope senderEmail filename filePath in
       try_catch
         (sendBlock e email senderEmail forwardedText filePath filename topicId)
         (catchBlock (catch_scope outer) filePath filename))
    (fun error => emit (ConsoleError "Error processing email:" error)).

(** The calls to [sendDocument] of a trace, in order. *)
Definition deliveries (tr : list event) : list request :=
  omap (fun ev => match ev with
                  | Called (SendDocument r) _ => Some r
                  | _ => None
                  end) tr.

Definition start (rs : list (option js_error)) : world :=
  {| responses := rs; trace := [] |}.

(** ** Retention sweep: utils/fileUtils.js *)

Inductive errno := ENOENT | EACCES | EPERM | EISDIR | EBUSY.

(** A directory entry together with what the file system answers for it:
    [mtimeMs] is [None] when [statSync] throws, [unlink_error] is the error
    that [fs.unlink] reports, if any. *)
Record entry := {
  file : str;
  mtimeMs : option Z;
  unlink_error : option errno
}.

(** [deleteFile]: a missing file counts as deleted. *)
Definition deleteFile (f : entry) : outcome bool :=
  match unlink_error f with
  | None => Return true
  | Some ENOENT => Return true
  | Some _ => Throw (JsError (lit "unlink"))
  end.

(** What the sweep did with an entry it tried to delete. *)
Inductive removal :=
  | Removed (f : str)          (* [fs.unlink] removed the file *)
  | Gone (f : str)             (* the file was no longer there *)
  | Failed (f : str).          (* the error was logged *)

(** The loop of [cleanupOldFiles]: the count and the log of removals. *)
Fixpoint sweep (now maxAge : Z) (files : list entry) (deletedCount : nat)
    : nat * list removal :=
  match files with
  | [] => (deletedCount, [])
  | f :: files' =>
      match mtimeMs f with
      | None =>
          let '(n, log) := sweep now maxAge files' deletedCount in
          (n, Failed (file f) :: log)
      | Some mtime =>
          let fileAge := (now - mtime)%Z in
          if (maxAge <? fileAge)%Z then
            match deleteFile f with
            | Return _ =>
                let '(n, log) := sweep now maxAge files' (S deletedCount) in
                (n, (match unlink_error f with
                     | None => Removed (file f)
                     | Some _ => Gone (file f)
                     end) :: log)
            | Throw _ =>
                let '(n, log) := sweep now maxAge files' deletedCount in
                (n, Failed (file f) :: log)
            end
          else sweep now maxAge files' deletedCount
      end
  end.

(** [cleanupOldFiles]: [uploads] is [None] when the directory does not
    exist, [Some (Throw e)] when [fs.readdir] fails. *)
Definition cleanupOldFiles (uploads : option (outcome (list entry)))
    (now maxAgeHours : Z) : outcome nat * list removal :=
  match uploads with
  | None => (Return 0%nat, [])
  | Some (Throw e) => (Throw e, [])
  | Some (Return files) =>
      let maxAge := (maxAgeHours * 60 * 60 * 1000)%Z in
      let '(n, log) := sweep now maxAge files 0 in
      (Return n, log)
  end.

(** The age of an entry, in hours scaled to milliseconds, exceeds the
    threshold. *)
Definition older (now maxAgeHours : Z) (f : entry) : bool :=
  match mtimeMs f with
  | Some mtime => (maxAgeHours * 60 * 60 * 1000 <? now - mtime)%Z
  | None => false
  end.

(** ** Mailbox watcher: services/emailService.js, [setupEmailListener]

    Every connection object carries three listeners registered with
    [once]; a listener runs for the first event of its kind and is then
    gone. *)
Module Watcher.

Definition maxReconnectAttempts : nat := 10.
Definition reconnectDelay : N := 10000.

Record connection := {
  on_ready : bool;
  on_error : bool;
  on_end : bool
}.

Record state := {
  reconnectAttempts : nat;
  connections : list connection;     (* in the order they were created *)
  timers : list N;                   (* pending [setTimeout] delays *)
  uncaught : bool                    (* an error event found no listener *)
}.

Inductive event :=
  | Ready (c : nat)
  | Error (c : nat)
  | End (c : nat)
  | Timeout.                         (* the oldest pending timer fires *)

(** [createImapConnection]: a new connection with its three listeners. *)
Definition createImapConnection (s : state) : state :=
  {| reconnectAttempts := reconnectAttempts s;
     connections := connections s
                    ++ [{| on_ready := true; on_error := true; on_end := true |}];
     timers := timers s;
     uncaught := uncaught s |}.

(** [setupEmailListener]. *)
Definition setupEmailListener : state :=
  createImapConnection
    {| reconnectAttempts := 0; connections := []; timers := [];
       uncaught := false |}.

Definition update (c : nat) (k : connection) (s : state) : state :=
  {| reconnectAttempts := reconnectAttempts s;
     connections := <[c := k]> (connections s);
     timers := timers s;
     uncaught := uncaught s |}.

Definition step (s : state) (ev : event) : state :=
  if uncaught s then s
  else
    match ev with
    | Ready c =>
        match connections s !! c with
        | Some k =>
            if on_ready k then
              let s := update c {| on_ready := false; on_error := on_error k;
                                   on_end := on_end k |} s in
              {| reconnectAttempts := 0; connections := connections s;
                 timers := timers s; uncaught := uncaught s |}
            else s
        | None => s
        end
    | Error c =>
        match connections s !! c with
        | Some k =>
            if on_error k then
              let s := update c {| on_ready := on_ready k; on_error := false;
                                   on_end := on_end k |} s in
              if bool_decide (reconnectAttempts s < maxReconnectAttempts)%nat
              then {| reconnectAttempts := S (reconnectAttempts s);
                      connections := connections s;
                      timers := timers s ++ [reconnectDelay];
                      uncaught := uncaught s |}
              else s
            else {| reconnectAttempts := reconnectAttempts s;
                    connections := connections s; timers := timers s;
                    uncaught := true |}
        | None => s
        end
    | End c =>
        match connections s !! c with
        | Some k =>
            if on_end k then
              update c {| on_ready := on_ready k; on_error := on_error k;
                          on_end := false |} s
            else s
        | None => s
        end
    | Timeout =>
        match timers s with
        | _ :: pending =>
            createImapConnection
              {| reconnectAttempts := reconnectAttempts s;
                 connections := connections s; timers := pending;
                 uncaught := uncaught s |}
        | [] => s
        end
    end.

Definition run (s : state) (evs : list event) : state := fold_left step evs s.

End Watcher.

(** ** The notions of the specification, stated without the code *)

(** [p] is the wildcard-domain entry [*@domain]. *)
Definition wildcard_entry (p domain : str) : Prop :=
  p = lit "*@" ++ domain ∧ AT ∉ domain.




(** ** The routing rule of the specification *)


(** The keys of the mappings are lower-case, as [setTopicForEmail] stores
    them. *)
Definition keys_lower_case (cfg : settings) : Prop :=
  ∀ k, is_Some (topicMappings cfg !! k) → toLowerCase k = k.


(** The scenario of the specification: one exact entry and the default 7. *)
Definition settings_alice : settings :=
  {| defaultTopic := Some 7%Z;
     topicMappings := {[ lit "alice@example.com" := 42%Z ]} |}.

(** ** Scenarios *)

Definition platform0 : runtime :=
  {| toLocaleString := fun _ => lit "1/1/2024, 12:00:00 PM";
     Date_now := 1700000000000;
     formatBytes := fun _ => lit "1 KB";
     base64 := fun _ => [];
     regexp_replace := fun _ _ s => s |}.

Definition mail_from (sender : str) (subj : option str) (body : option str)
    : mail :=
  {| from := Several [AddrObject {| name := []; address := sender |}];
     to := Absent; cc := Absent; subject := subj; text := body;
     html := None; date := None; attachments := [] |}.

Definition env_with (W : list str) (cfg : settings) : env :=
  {| whitelist := W; topics := cfg; TELEGRAM_CHAT_ID := lit "-1001";
     bot_initialised := true; uploadDir := lit "/app/uploads";
     platform := platform0 |}.

(** Sub-channel 99 is configured for the sender, and the messaging client
    answers the first [sendDocument] with its thread-not-found error.  The
    eight calls before it (browser and file system) succeed. *)
Definition thread_not_found : js_error :=
  JsError (lit "400: Bad Request: message thread not found").

Definition env99 : env :=
  env_with [] {| defaultTopic := None;
                 topicMappings := {[ lit "alice@example.com" := 99%Z ]} |}.

Definition mail99 : mail :=
  mail_from (lit "alice@example.com") (Some (lit "Report")) None.

Definition world99 : world :=
  start (replicate 8 None ++ [Some thread_not_found]).

(** ** Auxiliary notions of the proofs *)

(** A computation that calls [sendDocument] at most for the requests that
    satisfy [P], whatever the world. *)
Definition sends_only {A} (P : request → Prop) (m : M A) : Prop :=
  ∀ w, ∃ sent, deliveries (trace (m w).2) = deliveries (trace w) ++ sent
               ∧ Forall P sent.

(** A computation that calls [sendDocument] at most once, and then with
    the request [r]. *)
Definition sends_at_most {A} (r : request) (m : M A) : Prop :=
  ∀ w, deliveries (trace (m w).2) = deliveries (trace w)
       ∨ deliveries (trace (m w).2) = deliveries (trace w) ++ [r].

(** ** Document renderer: reading a trace *)

(** The errors that were logged under [label], in order. *)
Definition logged (label : string) (tr : list event) : list js_error :=
  omap (λ ev, match ev with
              | ConsoleError l e => if String.eqb l label then Some e else None
              | _ => None
              end) tr.

(** The errors with which the primary path and the fallback path failed. *)
Definition primary_errors (tr : list event) : list js_error :=
  logged "Error generating PDF:" tr.








(** ** HTML escaping, unit by unit *)

(** The five characters that [escapeHtml] replaces: [&], [<], [>], the
    double quote and the single quote. *)
Definition is_markup (c : N) : bool :=
  (c =? 38) || (c =? 60) || (c =? 62) || (c =? QUOT) || (c =? 39).

Definition entity (c : N) : str :=
  if c =? 38 then lit "&amp;"
  else if c =? 60 then lit "&lt;"
  else if c =? 62 then lit "&gt;"
  else if c =? QUOT then lit "&quot;"
  else lit "&#039;".

Definition escape_unit (c : N) : str :=
  if is_markup c then entity c else [c].



(** ** Occurrences of a marker in a text *)

Definition occurs (m t : str) : Prop := ∃ pre post, t = pre ++ m ++ post.

(** [pre] is the text before the first occurrence of [m] in [t]. *)
Definition before_first (m t pre : str) : Prop :=
  (∃ post, t = pre ++ m ++ post)
  ∧ ∀ pre' post', t = pre' ++ m ++ post' → (length pre ≤ length pre')%nat.

(** [m] is the first marker of the list [ms], in the order of the list,
    that occurs in [t]. *)
Definition first_listed (ms : list str) (t m : str) : Prop :=
  ∃ ms1 ms2, ms = ms1 ++ m :: ms2 ∧ occurs m t
             ∧ ∀ m', m' ∈ ms1 → ¬ occurs m' t.


(** A mail with the plain-text body [t] and nothing else. *)
Definition mail_with_text (t : str) : mail :=
  mail_from (lit "bob@example.com") None (Some t).

Definition marker (i : nat) : str := nth i markers [].


(** No comment: the text starts with the second marker, and the forwarded
    message quotes one forwarded with the first marker. *)
Definition forwarded_bare : str :=
  marker 1 ++ [NL] ++ lit "foo" ++ [NL] ++ marker 0.


(** ** Texts without runs of white space *)

(** No two consecutive units of the text are white space. *)
Fixpoint single_spaced (s : str) : bool :=
  match s with
  | a :: s' =>
      match s' with
      | b :: _ => negb (is_space a && is_space b) && single_spaced s'
      | [] => true
      end
  | [] => true
  end.

Definition starts_with_space (s : str) : bool :=
  match s with
  | c :: _ => is_space c
  | [] => false
  end.

(** The longest prefix of units that satisfy [p], and what follows it. *)
Fixpoint takeWhile (p : N → bool) (s : str) : str :=
  match s with
  | c :: s' => if p c then c :: takeWhile p s' else []
  | [] => []
  end.

Fixpoint dropWhile (p : N → bool) (s : str) : str :=
  match s with
  | c :: s' => if p c then dropWhile p s' else s
  | [] => []
  end.

(** The one request that the handler builds for a mail. *)
Definition expected_request (e : env) (email : mail) : request :=
  let senderEmail := extractSenderEmail (from email) in
  let filename := lit "email_" ++ decimal (Date_now (platform e))
                  ++ lit ".pdf" in
  {| chatId := TELEGRAM_CHAT_ID e;
     source := uploadDir e ++ lit "/" ++ filename;
     filename := filename;
     extra := optionsOf (captionOf senderEmail email (extractForwardedText email))
                        (getTopicForEmail (topics e) senderEmail) |}.

(** The scenario of a plain delivery: an empty allow-list, no routing. *)
Definition env_open : env := env_with [] DEFAULT_SETTINGS.

Definition mail_hi : mail := mail_from (lit "a@b.c") (Some (lit "Hi")) None.


(** ** Retention sweep: what is asked of the file system, and a scenario *)

(** The record that the sweep leaves for an entry it deleted. *)
Definition removal_of (f : entry) : removal :=
  match unlink_error f with
  | None => Removed (file f)
  | Some _ => Gone (file f)
  end.



(** ** Mailbox watcher: reachable states and pending reconnections *)

Definition reachable (s : Watcher.state) : Prop :=
  ∃ evs, s = Watcher.run Watcher.setupEmailListener evs.

(** The process is alive and connection [c] still has its [error]
    listener. *)
Definition error_listener (s : Watcher.state) (c : nat) : Prop :=
  Watcher.uncaught s = false
  ∧ ∃ k, Watcher.connections s !! c = Some k ∧ Watcher.on_error k = true.

Definition ready_listener (s : Watcher.state) (c : nat) : Prop :=
  Watcher.uncaught s = false
  ∧ ∃ k, Watcher.connections s !! c = Some k ∧ Watcher.on_ready k = true.

(** Connections that can still raise a handled error. *)
Definition armed (l : list Watcher.connection) : nat :=
  length (filter (λ k, Watcher.on_error k = true) l).

(** What can still lead to a new connection: a pending timer, or a
    connection whose error is still listened to. *)
Definition pending (s : Watcher.state) : nat :=
  (length (Watcher.timers s) + armed (Watcher.connections s))%nat.

(** Ten connections fail one after the other, each before it is ready;
    every failure schedules the next connection. *)
Definition ten_failures : list Watcher.event :=
  flat_map (λ c, [Watcher.Error c; Watcher.Timeout]) (seq 0 10).

(** ** Effects: what a computation leaves in the trace *)

(** A computation whose result does not depend on the trace it finds, and
    which only appends to it. *)
Definition framed {A} (m : M A) : Prop :=
  ∀ rs t,
    m {| responses := rs; trace := t |}
    = ((m (start rs)).1,
       {| responses := responses (m (start rs)).2;
          trace := t ++ trace (m (start rs)).2 |}).





(** The messaging client was not set up ([setupTelegramBot] returned
    [null]). *)
Definition env_no_bot : env :=
  {| whitelist := []; topics := DEFAULT_SETTINGS; TELEGRAM_CHAT_ID := lit "-1001";
     bot_initialised := false; uploadDir := lit "/app/uploads";
     platform := platform0 |}.

Definition not_initialised : js_error :=
  JsError (lit "Telegram bot not initialized properly").


(** ** Forwarded-message comment: a comment of two paragraphs *)

(** [Hi], an empty line and more, [team], then the first marker. *)
Definition two_paragraphs : str :=
  lit "Hi" ++ [NL; NL; NL] ++ lit "team" ++ [NL; NL] ++ marker 0 ++ [NL]
  ++ lit "...".

(** ** Retention sweep: every outcome of an entry *)

(** [fs.unlink] removes the file or reports that it is gone. *)
Definition deletable (f : entry) : bool :=
  match unlink_error f with
  | None | Some ENOENT => true
  | Some _ => false
  end.

(** What the sweep records for an entry: nothing for a file that is not
    older than the threshold. *)
Definition swept (now maxAgeHours : Z) (f : entry) : option removal :=
  match mtimeMs f with
  | None => Some (Failed (file f))
  | Some _ =>
      if older now maxAgeHours f
      then Some (if deletable f then removal_of f else Failed (file f))
      else None
  end.

(** ** Start-up: index.js, [startServer], lines 66-85

    [SERVER_PORT] is the number that [parseInt] reads from the environment
    (3000 when the variable is not set), a natural number here. *)

Inductive boot :=
  | Listening (port : N)       (* [app.listen(port)] is called *)
  | Exit.                      (* [process.exit(1)] *)

(** The loop over the ports.  [free port] tells whether the test server of
    [checkRunningInstance] gets to listen on the port; a port above 65535
    makes [listen] throw, so that [startServer] rejects and the process
    exits. *)
Fixpoint probePorts (free : N → bool) (port : N) (attempts : nat) : boot :=
  match attempts with
  | O => Exit
  | S attempts' =>
      if 65535 <? port then Exit
      else if free port then Listening port
      else probePorts free (port + 1) attempts'
  end.

Definition maxPortAttempts : nat := 10.

Definition startServer (free : N → bool) (SERVER_PORT : N) : boot :=
  probePorts free SERVER_PORT maxPortAttempts.

(** ** Address validation: services/telegramService.js, [isValidEmail] *)

(** [[^\s@]]. *)
Definition address_unit (c : N) : bool := negb (is_space c || (c =? AT)).

(** [$]: the end of the input. *)
Definition at_end (s : str) : option str :=
  match s with
  | [] => Some []
  | _ :: _ => None
  end.

(** One given unit, then the rest of the pattern. *)
Definition then_unit (u : N) (k : str → option str) (s : str) : option str :=
  match s with
  | c :: s' => if c =? u then k s' else None
  | [] => None
  end.

(** [/^[^\s@]+@[^\s@]+\.[^\s@]+$/.test(email)]: the pattern is anchored at
    both ends, so it is matched from the first unit and has to reach the
    end of the input. *)
Definition isValidEmail (email : str) : bool :=
  bool_decide (is_Some
    (greedy address_unit
       (then_unit AT
          (greedy address_unit
             (then_unit 46 (greedy address_unit at_end 1)) 1)) 1 email)).

(** The shape that the pattern describes. *)
Definition address_shape (email : str) : Prop :=
  ∃ l d t, email = l ++ [AT] ++ d ++ [46] ++ t
           ∧ l ≠ [] ∧ d ≠ [] ∧ t ≠ []
           ∧ Forall (λ c, address_unit c = true) (l ++ d ++ t).

(** ** The data directory and the process memory

    The two stores keep their JSON files in the directory [data/].  A file
    is absent, or cannot be read or parsed (reading throws the error), or
    holds a value.  The allow-list file, when it parses, holds an array of
    strings; the routing file an object whose two properties may be
    missing, [defaultTopic] being an integer or [null] and [topicMappings]
    an object from patterns to integers.  That is all the two modules ever
    write. *)
Inductive stored (A : Type) :=
  | NoFile
  | Garbage (e : js_error)
  | Holds (a : A).

Arguments NoFile {A}.

Arguments Garbage {A} e.

Arguments Holds {A} a.

Record topic_json := {
  json_defaultTopic : option (option Z);
  json_topicMappings : option (gmap str Z)
}.

(** The state that the stores work on.  [write_error] is the error that
    [fs.mkdirSync] and [fs.writeFileSync] throw, if they throw;
    [defaults_topicMappings] is the object [DEFAULT_SETTINGS.topicMappings]
    of topicManager.js, which is created empty when the module is loaded
    and lives as long as the process. *)
Record machine := {
  dataDir : bool;
  write_error : option js_error;
  whitelist_json : stored (list str);
  topic_settings_json : stored topic_json;
  defaults_topicMappings : gmap str Z;
  console : list event
}.

Definition IO (A : Type) : Type := machine → outcome A * machine.

Definition io_ret {A} (a : A) : IO A := λ m, (Return a, m).

#[global] Instance IO_ret : MRet IO := @io_ret.

#[global] Instance IO_bind : MBind IO := λ A B k c m,
  match c m with
  | (Return a, m') => k a m'
  | (Throw e, m') => (Throw e, m')
  end.

Definition io_throw {A} (e : js_error) : IO A := λ m, (Throw e, m).

Definition io_try {A} (body : IO A) (handler : js_error → IO A) : IO A :=
  λ m, match body m with
       | (Return a, m') => (Return a, m')
       | (Throw e, m') => handler e m'
       end.

Definition console_log (ev : event) : IO unit := λ m,
  (Return tt,
   {| dataDir := dataDir m; write_error := write_error m;
      whitelist_json := whitelist_json m;
      topic_settings_json := topic_settings_json m;
      defaults_topicMappings := defaults_topicMappings m;
      console := console m ++ [ev] |}).

(** [if (!fs.existsSync(dataDir)) fs.mkdirSync(dataDir, { recursive: true })],
    the body of [ensureDataDir] in both modules. *)
Definition ensureDataDir : IO unit := λ m,
  if dataDir m then (Return tt, m)
  else match write_error m with
       | Some e => (Throw e, m)
       | None =>
           (Return tt,
            {| dataDir := true; write_error := write_error m;
               whitelist_json := whitelist_json m;
               topic_settings_json := topic_settings_json m;
               defaults_topicMappings := defaults_topicMappings m;
               console := console m |})
       end.

(** [fs.writeFileSync(whitelistPath, JSON.stringify(whitelist, null, 2))];
    every call is preceded by [ensureDataDir]. *)
Definition write_whitelist (whitelist : list str) : IO unit := λ m,
  match write_error m with
  | Some e => (Throw e, m)
  | None =>
      (Return tt,
       {| dataDir := dataDir m; write_error := write_error m;
          whitelist_json := Holds whitelist;
          topic_settings_json := topic_settings_json m;
          defaults_topicMappings := defaults_topicMappings m;
          console := console m |})
  end.

Definition write_topic_settings (j : topic_json) : IO unit := λ m,
  match write_error m with
  | Some e => (Throw e, m)
  | None =>
      (Return tt,
       {| dataDir := dataDir m; write_error := write_error m;
          whitelist_json := whitelist_json m;
          topic_settings_json := Holds j;
          defaults_topicMappings := defaults_topicMappings m;
          console := console m |})
  end.

(** [fs.existsSync] followed by [fs.readFileSync] and [JSON.parse]. *)
Definition read_whitelist : IO (stored (list str)) := λ m,
  (Return (whitelist_json m), m).

Definition read_topic_settings : IO (stored topic_json) := λ m,
  (Return (topic_settings_json m), m).

(** ** Allow-list store on disk: utils/whitelistManager.js, lines 8-100 *)
Module AllowList.

(** The result objects [{ success, message }]. *)
Record result := { success : bool; message : str }.

(** [saveWhitelist]; [ensureDataDir] is called before the [try]. *)
Definition saveWhitelist (whitelist : list str) : IO bool :=
  ensureDataDir;;
  io_try (write_whitelist whitelist;; io_ret true)
    (λ error, console_log (ConsoleError "Error saving whitelist:" error);;
              io_ret false).

(** [getWhitelist]. *)
Definition getWhitelist : IO (list str) :=
  ensureDataDir;;
  file ← read_whitelist;
  match file with
  | NoFile => saveWhitelist [];; io_ret []
  | Garbage error =>
      console_log (ConsoleError "Error reading whitelist:" error);; io_ret []
  | Holds whitelist => io_ret whitelist
  end.

(** [ensureWhitelistFile]. *)
Definition ensureWhitelistFile : IO bool :=
  ensureDataDir;;
  file ← read_whitelist;
  match file with
  | NoFile =>
      console_log (ConsoleLog "Creating default whitelist file...");;
      saveWhitelist [];; io_ret true
  | _ => io_ret true
  end.

(** [addToWhitelist]. *)
Definition addToWhitelist (email : str) : IO result :=
  whitelist ← getWhitelist;
  if bool_decide (email ∈ whitelist)
  then io_ret {| success := false; message := lit "Email already in whitelist" |}
  else
    saved ← saveWhitelist (whitelist ++ [email]);
    match saved with
    | true => io_ret {| success := true; message := lit "Email added to whitelist" |}
    | false => io_ret {| success := false;
                         message := lit "Failed to add email to whitelist" |}
    end.

(** [removeFromWhitelist]. *)
Definition removeFromWhitelist (email : str) : IO result :=
  whitelist ← getWhitelist;
  if negb (bool_decide (email ∈ whitelist))
  then io_ret {| success := false; message := lit "Email not found in whitelist" |}
  else
    let newWhitelist := filter (λ e, e ≠ email) whitelist in
    saved ← saveWhitelist newWhitelist;
    match saved with
    | true => io_ret {| success := true;
                        message := lit "Email removed from whitelist" |}
    | false => io_ret {| success := false;
                         message := lit "Failed to remove email from whitelist" |}
    end.

(** [isWhitelisted], with the list read from the disk. *)
Definition isWhitelisted (email : str) : IO bool :=
  whitelist ← getWhitelist;
  io_ret (isWhitelisted whitelist email).

End AllowList.

(** ** Routing store on disk: utils/topicManager.js, lines 384-633 *)
Module TopicManager.

Record result := { success : bool; message : str }.

(** A settings object in memory.  [shared] tells that its [topicMappings]
    is the very object [DEFAULT_SETTINGS.topicMappings]: the spread
    [{ ...DEFAULT_SETTINGS }] copies the two properties of the default
    object, not the object that [topicMappings] refers to. *)
Record loaded := {
  value : settings;
  shared : bool
}.

(** [DEFAULT_SETTINGS] as it is at the moment, and [{ ...DEFAULT_SETTINGS }]. *)
Definition default_settings : IO settings := λ m,
  (Return {| defaultTopic := None;
             topicMappings := defaults_topicMappings m |}, m).

Definition spread_defaults : IO loaded :=
  s ← default_settings; io_ret {| value := s; shared := true |}.

(** [JSON.stringify] of a settings object. *)
Definition stringify (s : settings) : topic_json :=
  {| json_defaultTopic := Some (defaultTopic s);
     json_topicMappings := Some (topicMappings s) |}.

(** [getTopicSettings]: the whole body is inside the [try]. *)
Definition getTopicSettings : IO loaded :=
  io_try
    (ensureDataDir;;
     file ← read_topic_settings;
     match file with
     | NoFile =>
         s ← default_settings;
         write_topic_settings (stringify s);;
         spread_defaults
     | Garbage error => io_throw error
     | Holds j =>
         io_ret {| value := {| defaultTopic := default None (json_defaultTopic j);
                               topicMappings := default ∅ (json_topicMappings j) |};
                   shared := false |}
     end)
    (λ error,
       console_log (ConsoleError "Error loading topic settings:" error);;
       spread_defaults).

(** [saveTopicSettings]. *)
Definition saveTopicSettings (s : settings) : IO bool :=
  io_try
    (ensureDataDir;;
     write_topic_settings (stringify s);;
     console_log (ConsoleLog "Topic settings saved:");;
     io_ret true)
    (λ error,
       console_log (ConsoleError "Error saving topic settings:" error);;
       io_ret false).

(** A write through [settings.topicMappings]: when the object is the one of
    [DEFAULT_SETTINGS], the defaults change with it. *)
Definition mutate_mappings (l : loaded) (mappings : gmap str Z) : IO settings :=
  λ m,
    (Return {| defaultTopic := defaultTopic (value l); topicMappings := mappings |},
     if shared l
     then {| dataDir := dataDir m; write_error := write_error m;
             whitelist_json := whitelist_json m;
             topic_settings_json := topic_settings_json m;
             defaults_topicMappings := mappings;
             console := console m |}
     else m).

(** [object[key] = value] for a number [value]: the key [__proto__] names
    the prototype of an object that has no own property of that name, and
    the assignment of a number to it does nothing. *)
Definition assign (key : str) (v : Z) (object : gmap str Z) : gmap str Z :=
  if bool_decide (key = lit "__proto__") && bool_decide (object !! key = None)
  then object
  else <[key := v]> object.

(** A number in a template literal; the ids that [parseInt] yields are
    positive integers. *)
Definition number (n : Z) : str := decimal (Z.to_N n).

Definition invalid_topic (topicId : str) : result :=
  {| success := false;
     message := lit "Invalid topic ID: " ++ topicId
                ++ lit ". Must be a positive number." |}.

(** [setDefaultTopic]; [None] is [null]. *)
Definition setDefaultTopic (topicId : option str) : IO result :=
  let store (topicId : option Z) : IO result :=
    l ← getTopicSettings;
    saved ← saveTopicSettings {| defaultTopic := topicId;
                                 topicMappings := topicMappings (value l) |};
    match saved with
    | true =>
        io_ret {| success := true;
                  message := match topicId with
                             | None => lit "Default topic cleared"
                             | Some n => lit "Default topic set to " ++ number n
                             end |}
    | false => io_ret {| success := false; message := lit "Failed to save settings" |}
    end in
  match topicId with
  | None => store None
  | Some id =>
      match parseInt id with
      | Some n => if (0 <? n)%Z then store (Some n) else io_ret (invalid_topic id)
      | None => io_ret (invalid_topic id)
      end
  end.

(** [getDefaultTopic]. *)
Definition getDefaultTopic : IO (option Z) :=
  l ← getTopicSettings; io_ret (defaultTopic (value l)).

(** [setTopicForEmail]. *)
Definition setTopicForEmail (emailOrPattern topicId : str) : IO result :=
  if negb (truthy emailOrPattern)
  then io_ret {| success := false;
                 message := lit "Email address or pattern is required" |}
  else
    match parseInt topicId with
    | Some n =>
        if (0 <? n)%Z then
          let emailOrPattern := toLowerCase emailOrPattern in
          l ← getTopicSettings;
          s ← mutate_mappings l (assign emailOrPattern n (topicMappings (value l)));
          saved ← saveTopicSettings s;
          match saved with
          | true =>
              io_ret {| success := true;
                        message := lit "Topic ID " ++ number n ++ lit " set for "
                                   ++ emailOrPattern |}
          | false =>
              io_ret {| success := false; message := lit "Failed to save settings" |}
          end
        else io_ret (invalid_topic topicId)
    | None => io_ret (invalid_topic topicId)
    end.

(** [removeTopicForEmail]. *)
Definition removeTopicForEmail (emailOrPattern : str) : IO result :=
  if negb (truthy emailOrPattern)
  then io_ret {| success := false;
                 message := lit "Email address or pattern is required" |}
  else
    let emailOrPattern := toLowerCase emailOrPattern in
    l ← getTopicSettings;
    match topicMappings (value l) !! emailOrPattern with
    | Some _ =>
        s ← mutate_mappings l (delete emailOrPattern (topicMappings (value l)));
        saved ← saveTopicSettings s;
        match saved with
        | true =>
            io_ret {| success := true;
                      message := lit "Topic mapping removed for " ++ emailOrPattern |}
        | false =>
            io_ret {| success := false; message := lit "Failed to save settings" |}
        end
    | None =>
        io_ret {| success := false;
                  message := lit "No topic mapping found for " ++ emailOrPattern |}
    end.

(** [getTopicMappings]. *)
Definition getTopicMappings : IO (gmap str Z) :=
  l ← getTopicSettings; io_ret (topicMappings (value l)).

(** [getTopicForEmail], with the settings read from the disk. *)
Definition getTopicForEmail (email : str) : IO (option Z) :=
  l ← getTopicSettings; io_ret (getTopicForEmail (value l) email).

End TopicManager.

(** ** Bot commands: services/telegramService.js

    A command handler receives the text of the message.  What it answers
    is recorded by the branch that answers; the wording of the replies is
    not modelled. *)

(** [String.prototype.endsWith]. *)
Definition endsWith (p s : str) : bool := startsWith (rev p) (rev s).

Module Bot.

Inductive reply :=
  | Usage                          (* an argument is missing *)
  | BadMask (pattern : str)        (* [*@domain] with an unusable domain *)
  | NotAnAddress (email : str)
  | NotATopic (topicId : str)
  | Done (success : bool).         (* the answer built from [result.success] *)

(** [ctx.message.text.trim().split(' ')]. *)
Definition arguments (text : str) : list str := split [SP] (trim text).

(** [/add], lines 274-312. *)
Definition add (text : str) : IO reply :=
  let parts := arguments text in
  if bool_decide (length parts < 2)%nat then io_ret Usage
  else
    let email := toLowerCase (part 1 parts) in
    if isDomainWildcard email then
      let domain := part 1 (split [AT] email) in
      if negb (truthy domain) || negb (includes [46] domain)
         || endsWith [46] domain
      then io_ret (BadMask email)
      else
        result ← AllowList.addToWhitelist email;
        io_ret (Done (AllowList.success result))
    else if negb (isValidEmail email) then io_ret (NotAnAddress email)
    else
      result ← AllowList.addToWhitelist email;
      io_ret (Done (AllowList.success result)).

(** [/remove], lines 315-338. *)
Definition remove (text : str) : IO reply :=
  let parts := arguments text in
  if bool_decide (length parts < 2)%nat then io_ret Usage
  else
    let email := toLowerCase (part 1 parts) in
    result ← AllowList.removeFromWhitelist email;
    io_ret (Done (AllowList.success result)).


(** [/remove_topic], lines 245-271. *)
Definition remove_topic (text : str) : IO reply :=
  let parts := arguments text in
  if bool_decide (length parts < 2)%nat then io_ret Usage
  else
    let emailOrPattern := toLowerCase (part 1 parts) in
    if negb (isValidEmail emailOrPattern)
       && negb (isDomainWildcard emailOrPattern)
    then io_ret (NotAnAddress emailOrPattern)
    else
      result ← TopicManager.removeTopicForEmail emailOrPattern;
      io_ret (Done (TopicManager.success result)).

(** [/set_default_topic], lines 179-198, and [/clear_default_topic],
    lines 201-206. *)
Definition set_default_topic (text : str) : IO reply :=
  let parts := arguments text in
  if bool_decide (length parts < 2)%nat then io_ret Usage
  else
    let topicId := part 1 parts in
    if negb (isValidTopicId topicId) then io_ret (NotATopic topicId)
    else
      result ← TopicManager.setDefaultTopic (Some topicId);
      io_ret (Done (TopicManager.success result)).

Definition clear_default_topic : IO reply :=
  result ← TopicManager.setDefaultTopic None;
  io_ret (Done (TopicManager.success result)).

End Bot.

(** ** The stores, read off a machine *)

(** The list that [getWhitelist] finds: empty when the file is missing or
    cannot be read. *)
Definition entries (m : machine) : list str :=
  match whitelist_json m with
  | Holds whitelist => whitelist
  | _ => []
  end.

(** [ensureDataDir] does not throw: the directory exists or can be made. *)
Definition dir_ok (m : machine) : Prop :=
  dataDir m = true ∨ write_error m = None.

(** The settings that [getTopicSettings] finds: those of the file when it
    parses, the defaults of the process otherwise. *)
Definition current (m : machine) : settings :=
  match topic_settings_json m with
  | Holds j => {| defaultTopic := default None (json_defaultTopic j);
                  topicMappings := default ∅ (json_topicMappings j) |}
  | _ => {| defaultTopic := None; topicMappings := defaults_topicMappings m |}
  end.

(** The routing file is there and parses. *)
Definition file_in_order (m : machine) : Prop :=
  ∃ j, topic_settings_json m = Holds j.

(** A topic id as the commands receive it: a text that [parseInt] reads as
    the positive integer [n]. *)
Definition reads_as (topicId : str) (n : Z) : Prop :=
  parseInt topicId = Some n ∧ (0 < n < 2 ^ 53)%Z.

(** Every key of the defaults of the process and of the settings in force
    is lower-case. *)
Definition lower_case_store (m : machine) : Prop :=
  (∀ k, is_Some (defaults_topicMappings m !! k) → toLowerCase k = k)
  ∧ keys_lower_case (current m).

(** What the [/add] command lets into the allow-list: a lower-case text
    with exactly one ['@'] that is a mask [*@domain] whose domain has a dot
    and does not end in one, or has the shape of an address. *)
Definition admissible (e : str) : Prop :=
  toLowerCase e = e
  ∧ length (split [AT] e) = 2%nat
  ∧ ((∃ d, wildcard_entry e d ∧ 46 ∈ d ∧ last d ≠ Some 46)
     ∨ address_shape e).

(** ** Machines of the scenarios *)

(** A fresh installation: an empty, writable data directory. *)
Definition fresh_machine : machine :=
  {| dataDir := true; write_error := None;
     whitelist_json := NoFile; topic_settings_json := NoFile;
     defaults_topicMappings := ∅; console := [] |}.

(** A machine on which nothing can be written, with no routing file. *)
Definition read_only_machine : machine :=
  {| dataDir := true;
     write_error := Some (JsError (lit "EROFS: read-only file system"));
     whitelist_json := NoFile; topic_settings_json := NoFile;
     defaults_topicMappings := ∅; console := [] |}.

(** A writable machine whose allow-list file holds [l]. *)
Definition machine_with (l : list str) : machine :=
  {| dataDir := true; write_error := None;
     whitelist_json := Holds l; topic_settings_json := NoFile;
     defaults_topicMappings := ∅; console := [] |}.

(** The allow-list file cannot be parsed. *)
Definition garbled_machine : machine :=
  {| dataDir := true; write_error := None;
     whitelist_json := Garbage (JsError (lit "Unexpected end of JSON input"));
     topic_settings_json := NoFile;
     defaults_topicMappings := ∅; console := [] |}.

(** A writable machine whose routing file maps [a@b.c] to topic 5. *)
Definition routed_machine : machine :=
  {| dataDir := true; write_error := None;
     whitelist_json := NoFile;
     topic_settings_json :=
       Holds {| json_defaultTopic := Some None;
                json_topicMappings := Some {[ lit "a@b.c" := 5%Z ]} |};
     defaults_topicMappings := ∅; console := [] |}.

(* ===================================================================== *)
(** * Part II: lemmas and theorems                                         *)
(* ===================================================================== *)

(** ** Strings *)

Lemma startsWith_app (p r : str) : startsWith p (p ++ r) = true.
Proof.
  induction p as [|a p IH]; simpl; [done|].
  by rewrite N.eqb_refl, IH.
Qed.

Lemma startsWith_inv (p s : str) :
  startsWith p s = true → ∃ r, s = p ++ r.
Proof.
  revert s. induction p as [|a p IH]; intros s H; simpl in *.
  - by exists s.
  - destruct s as [|b s]; [done|].
    apply andb_true_iff in H as [Hab Hp].
    apply N.eqb_eq in Hab as ->.
    destruct (IH _ Hp) as [r ->]. by exists r.
Qed.

Lemma startsWith_iff (p s : str) :
  startsWith p s = true ↔ ∃ r, s = p ++ r.
Proof.
  split; [apply startsWith_inv|]. intros [r ->]. apply startsWith_app.
Qed.

(** Splitting at a single code unit. *)
Lemma split_from_unit_cons (a c : N) (s : str) :
  split_from [a] 0 (c :: s) =
    if a =? c then ([], (split_from [a] 0 s).1 :: (split_from [a] 0 s).2)
    else (c :: (split_from [a] 0 s).1, (split_from [a] 0 s).2).
Proof.
  simpl. destruct (a =? c); simpl; by destruct (split_from [a] 0 s).
Qed.

Lemma split_unit_hit (a : N) (s : str) :
  split [a] (a :: s) = [] :: split [a] s.
Proof.
  unfold split. rewrite split_from_unit_cons, N.eqb_refl.
  by destruct (split_from [a] 0 s).
Qed.

Lemma split_unit_miss (a c : N) (s : str) :
  c ≠ a →
  split [a] (c :: s) = (c :: hd [] (split [a] s)) :: tail (split [a] s).
Proof.
  intros Hne. unfold split. rewrite split_from_unit_cons.
  destruct (N.eqb_spec a c) as [->|_]; [done|].
  by destruct (split_from [a] 0 s).
Qed.

Lemma split_unit_absent (a : N) (s : str) : a ∉ s → split [a] s = [s].
Proof.
  induction s as [|c s IH]; intros Hs; [done|].
  apply not_elem_of_cons in Hs as [Hne Hs].
  rewrite split_unit_miss by done. by rewrite IH.
Qed.

Lemma split_unit_first (a : N) (l r : str) :
  a ∉ l → split [a] (l ++ a :: r) = l :: split [a] r.
Proof.
  induction l as [|c l IH]; intros Hl; simpl.
  - apply split_unit_hit.
  - apply not_elem_of_cons in Hl as [Hne Hl].
    rewrite split_unit_miss by done. by rewrite IH.
Qed.

Lemma split_nonempty (sep s : str) : split sep s ≠ [].
Proof. unfold split. by destruct (split_from sep 0 s). Qed.

Lemma split_unit_single (a : N) (s : str) :
  length (split [a] s) = 1%nat ↔ a ∉ s.
Proof.
  split.
  - intros Hlen Hin.
    destruct (list_elem_of_split_l _ _ Hin) as (l & r & -> & Hl).
    rewrite split_unit_first in Hlen by done. simpl in Hlen.
    pose proof (split_nonempty [a] r). destruct (split [a] r); [done|].
    simpl in Hlen. lia.
  - intros Hs. by rewrite split_unit_absent.
Qed.

(** An address splits in two exactly when it has the shape
    [local@domain]; the second part is then the domain. *)
Lemma split_unit_two (a : N) (s : str) :
  length (split [a] s) = 2%nat ↔
  ∃ l d, s = l ++ a :: d ∧ (a ∉ l) ∧ a ∉ d.
Proof.
  split.
  - intros Hlen. destruct (decide (a ∈ s)) as [Hin|Hout].
    + destruct (list_elem_of_split_l _ _ Hin) as (l & r & -> & Hl).
      exists l, r. repeat split; [done|].
      rewrite split_unit_first in Hlen by done. simpl in Hlen.
      apply split_unit_single. lia.
    + rewrite split_unit_absent in Hlen by done. done.
  - intros (l & d & -> & Hl & Hd).
    rewrite split_unit_first by done. by rewrite split_unit_absent.
Qed.

Lemma split_unit_domain (a : N) (l d : str) :
  a ∉ l → a ∉ d → part 1 (split [a] (l ++ a :: d)) = d.
Proof.
  intros Hl Hd. rewrite split_unit_first by done.
  by rewrite split_unit_absent.
Qed.


(** ** Allow-list *)

Lemma star_has_no_at : AT ∉ [42].
Proof. by intros ?%list_elem_of_singleton. Qed.

Lemma isDomainWildcard_spec (p : str) :
  isDomainWildcard p = true ↔ ∃ d, wildcard_entry p d.
Proof.
  unfold isDomainWildcard, wildcard_entry.
  rewrite andb_true_iff, bool_decide_eq_true, startsWith_iff. split.
  - intros [[d ->] Hlen]. exists d. split; [done|].
    change (lit "*@" ++ d) with ([42] ++ AT :: d) in Hlen.
    rewrite split_unit_first in Hlen by apply star_has_no_at.
    simpl in Hlen. apply split_unit_single. lia.
  - intros (d & -> & Hd). split; [by exists d|].
    change (lit "*@" ++ d) with ([42] ++ AT :: d).
    rewrite split_unit_first by apply star_has_no_at.
    by rewrite split_unit_absent.
Qed.




(** An address with two ['@'] has no domain in the sense of
    [domain_of]; it is accepted only by an empty list or by an exact
    entry. *)
Example two_ats_match_no_wildcard :
  isWhitelisted [lit "*@c.com"; lit "*@b"] (lit "a@b@c.com") = false.
Proof. by vm_compute. Qed.

(** The exact comparison keeps the case of the stored entry. *)
Example exact_entries_keep_case :
  isWhitelisted [lit "Bob@example.com"] (lit "bob@example.com") = false
  ∧ isWhitelisted [lit "*@Example.COM"] (lit "bob@example.com") = true.
Proof. split; by vm_compute. Qed.

(** ** Effects *)

Lemma deliveries_app (t1 t2 : list event) :
  deliveries (t1 ++ t2) = deliveries t1 ++ deliveries t2.
Proof. apply omap_app. Qed.

Lemma sends_only_ret {A} P (a : A) : sends_only P (ret a).
Proof. intros w. exists []. by rewrite app_nil_r. Qed.

Lemma sends_only_throw {A} P e : sends_only P (@throw A e).
Proof. intros w. exists []. by rewrite app_nil_r. Qed.

Lemma sends_only_bind {A B} P (m : M A) (k : A → M B) :
  sends_only P m → (∀ a, sends_only P (k a)) → sends_only P (m ≫= k).
Proof.
  intros Hm Hk w. unfold mbind, M_bind, bind.
  destruct (Hm w) as (s1 & E1 & F1).
  destruct (m w) as [[a|e] w1]; simpl in *.
  - destruct (Hk a w1) as (s2 & E2 & F2). exists (s1 ++ s2).
    rewrite E2, E1, app_assoc. split; [done|]. by apply Forall_app.
  - by exists s1.
Qed.

Lemma sends_only_try_catch {A} P (m : M A) (h : js_error → M A) :
  sends_only P m → (∀ e, sends_only P (h e)) → sends_only P (try_catch m h).
Proof.
  intros Hm Hh w. unfold try_catch.
  destruct (Hm w) as (s1 & E1 & F1).
  destruct (m w) as [[a|e] w1]; simpl in *.
  - by exists s1.
  - destruct (Hh e w1) as (s2 & E2 & F2). exists (s1 ++ s2).
    rewrite E2, E1, app_assoc. split; [done|]. by apply Forall_app.
Qed.

Lemma sends_only_try_finally {A} P (m : M A) (c : M unit) :
  sends_only P m → sends_only P c → sends_only P (try_finally m c).
Proof.
  intros Hm Hc w. unfold try_finally.
  destruct (Hm w) as (s1 & E1 & F1).
  destruct (m w) as [r w1]; simpl in *.
  destruct (Hc w1) as (s2 & E2 & F2).
  destruct (c w1) as [[u|e] w2]; simpl in *;
    exists (s1 ++ s2); rewrite E2, E1, app_assoc;
    (split; [done|]); by apply Forall_app.
Qed.

Lemma sends_only_emit P (ev : event) :
  deliveries [ev] = [] → sends_only P (emit ev).
Proof.
  intros Hev w. exists []. simpl.
  by rewrite deliveries_app, Hev.
Qed.

Lemma sends_only_await P (c : call) :
  (∀ r, c = SendDocument r → P r) → sends_only P (await c).
Proof.
  intros Hc w. exists (deliveries [Called c None]). unfold await.
  split.
  - destruct (responses w) as [|[e|] rs]; simpl; by rewrite deliveries_app.
  - destruct c; simpl; try done. apply Forall_singleton. by apply Hc.
Qed.

Lemma sends_only_weaken {A} (P Q : request → Prop) (m : M A) :
  (∀ r, P r → Q r) → sends_only P m → sends_only Q m.
Proof.
  intros HPQ Hm w. destruct (Hm w) as (s & E & F).
  exists s. split; [done|]. by eapply Forall_impl.
Qed.

Ltac quiet :=
  repeat first
    [ apply sends_only_ret | apply sends_only_throw
    | apply sends_only_emit; reflexivity
    | apply sends_only_await; (intros ? [=]; subst; try done)
    | apply sends_only_bind; [|intros ?]
    | apply sends_only_try_catch; [|intros ?]
    | apply sends_only_try_finally ].

(** The renderer never talks to the messaging client. *)
Lemma convertEmailToPdf_sends_nothing P rt email :
  sends_only P (convertEmailToPdf rt email).
Proof. unfold convertEmailToPdf, primaryPath, fallbackPath. quiet. Qed.

(** ** Occurrences and [split] *)

Lemma includes_occurs (p s : str) : includes p s = true ↔ occurs p s.
Proof.
  unfold occurs. induction s as [|c s IH]; simpl.
  - rewrite orb_false_r, startsWith_iff. split.
    + intros [r Hr]. exists [], r. done.
    + intros (pre & post & H). symmetry in H.
      apply app_eq_nil in H as [-> H]. apply app_eq_nil in H as [-> ->].
      by exists [].
  - rewrite orb_true_iff, startsWith_iff, IH. split.
    + intros [[r Hr]|(pre & post & ->)].
      * by exists [], r.
      * by exists (c :: pre), post.
    + intros ([|c' pre] & post & H); simpl in H.
      * left. by exists post.
      * right. injection H as -> ->. by exists pre, post.
Qed.

Lemma split_from_skip (sep x rest : str) :
  split_from sep (length x) (x ++ rest) = split_from sep 0 rest.
Proof.
  induction x as [|c x IH]; simpl; [|done].
  by destruct rest.
Qed.

Lemma split_hit (sep post : str) :
  sep ≠ [] → split sep (sep ++ post) = [] :: split sep post.
Proof.
  intros Hsep. destruct sep as [|c sep]; [done|].
  unfold split. change ((c :: sep) ++ post) with (c :: (sep ++ post)).
  cbn [split_from].
  assert (startsWith (c :: sep) (c :: (sep ++ post)) = true) as ->
    by apply (startsWith_app (c :: sep) post).
  replace (length (c :: sep) - 1)%nat with (length sep) by (simpl; lia).
  rewrite split_from_skip.
  by destruct (split_from (c :: sep) 0 post).
Qed.

Lemma split_miss (sep : str) (c : N) (s : str) :
  startsWith sep (c :: s) = false →
  split sep (c :: s) = (c :: hd [] (split sep s)) :: tail (split sep s).
Proof.
  intros H. unfold split. cbn [split_from]. rewrite H.
  by destruct (split_from sep 0 s).
Qed.

(** The first segment is the text before the first occurrence. *)
Lemma split_first (sep pre post : str) :
  sep ≠ [] →
  (∀ i, (i < length pre)%nat → startsWith sep (drop i (pre ++ sep ++ post)) = false) →
  split sep (pre ++ sep ++ post) = pre :: split sep post.
Proof.
  intros Hsep. induction pre as [|c pre IH]; intros Hfirst; simpl.
  - by apply split_hit.
  - rewrite split_miss by (apply (Hfirst 0%nat); simpl; lia).
    rewrite IH; [done|].
    intros i Hi. apply (Hfirst (S i)). simpl. lia.
Qed.

Lemma startsWith_drop_occurrence (m pre post : str) :
  startsWith m (drop (length pre) (pre ++ m ++ post)) = true.
Proof. rewrite drop_app_length. apply startsWith_app. Qed.

Lemma before_first_no_earlier (m t pre : str) (i : nat) :
  before_first m t pre → (i < length pre)%nat →
  startsWith m (drop i t) = false.
Proof.
  intros [_ Hmin] Hi. destruct (startsWith m (drop i t)) eqn:H; [|done].
  apply startsWith_inv in H as [r Hr].
  assert (t = take i t ++ m ++ r) as Ht by (by rewrite <- Hr, take_drop).
  apply Hmin in Ht. rewrite length_take in Ht. lia.
Qed.

Lemma split_before_first (m t pre : str) :
  m ≠ [] → before_first m t pre →
  part 0 (split m t) = pre ∧ (1 < length (split m t))%nat.
Proof.
  intros Hm Hb. pose proof Hb as [[post ->] _].
  rewrite split_first; [|done|].
  - split; [done|]. simpl. pose proof (split_nonempty m post).
    destruct (split m post); [done|]. simpl. lia.
  - intros i Hi. by eapply before_first_no_earlier.
Qed.

(** An occurrence has a first occurrence. *)
Lemma occurs_before_first (m t : str) :
  occurs m t → ∃ pre, before_first m t pre.
Proof.
  intros (pre0 & post0 & Ht).
  assert (∀ n pre post, length pre = n → t = pre ++ m ++ post →
            ∃ pre', before_first m t pre') as H.
  { induction n as [n IH] using lt_wf_ind. intros pre post Hn Hpre.
    destruct (decide (Exists (λ i, startsWith m (drop i t) = true) (seq 0 n)))
      as [Hsome|Hnone].
    - apply Exists_exists in Hsome as (i & Hi & Hs).
      apply elem_of_seq in Hi as [_ Hi]. simpl in Hi.
      apply startsWith_inv in Hs as [r Hr].
      apply (IH i Hi (take i t) r).
      + rewrite length_take, Hpre, !length_app. lia.
      + by rewrite <- Hr, take_drop.
    - exists pre. split; [by exists post|].
      intros pre' post' Hpre'. destruct (decide (length pre' < n)%nat); [|lia].
      exfalso. apply Hnone, Exists_exists. exists (length pre'). split.
      + apply elem_of_seq. simpl. lia.
      + rewrite Hpre'. apply startsWith_drop_occurrence. }
  by eapply H.
Qed.

(** ** Trimming and the rewriting passes *)

Lemma trimStart_head (s : str) :
  trimStart s = [] ∨ ∃ c r, trimStart s = c :: r ∧ is_space c = false.
Proof.
  induction s as [|c s IH]; simpl; [by left|].
  destruct (is_space c) eqn:Hc; [done|]. right. by exists c, s.
Qed.

Lemma trimStart_keeps_last (a : str) (c : N) :
  is_space c = false → ∃ a', trimStart (a ++ [c]) = a' ++ [c].
Proof.
  intros Hc. induction a as [|x a IH]; simpl.
  - rewrite Hc. by exists [].
  - destruct (is_space x); [done|]. by exists (x :: a).
Qed.

(** A trimmed text is empty or starts with a unit that is not white
    space. *)
Lemma trim_head (s : str) :
  trim s = [] ∨ ∃ c r, trim s = c :: r ∧ is_space c = false.
Proof.
  unfold trim. destruct (trimStart_head s) as [->|(c & r & -> & Hc)].
  - by left.
  - right. simpl. destruct (trimStart_keeps_last (rev r) c Hc) as [a' ->].
    rewrite rev_app_distr. simpl. by exists c, (rev a').
Qed.

Lemma is_nl_space (c : N) : is_space c = false → is_nl c = false.
Proof.
  unfold is_nl, NL. destruct (N.eqb_spec c 10) as [->|]; [done|done].
Qed.

Lemma replace_head_kept (re : list atom) (sub : str → str) (c : N) (s : str) :
  match_here re (c :: s) = None →
  replace re sub (c :: s) = c :: replace re sub s.
Proof. unfold replace. simpl. by intros ->. Qed.

Lemma breaks_keep_head (c : N) (s : str) :
  is_space c = false →
  ∃ r, replace re_breaks (fun _ => [NL; NL]) (c :: s) = c :: r.
Proof.
  intros Hc. eexists. apply replace_head_kept. simpl.
  by rewrite (is_nl_space c Hc).
Qed.

Lemma indent_keeps_head (c : N) (s : str) :
  is_space c = false →
  ∃ r, replace re_indent (fun _ => [NL]) (c :: s) = c :: r.
Proof.
  intros Hc. eexists. apply replace_head_kept. simpl.
  by rewrite (is_nl_space c Hc).
Qed.

Lemma spaces_keep_head (c : N) (s : str) :
  is_space c = false →
  ∃ r, replace re_spaces (fun _ => [SP]) (c :: s) = c :: r.
Proof.
  intros Hc. eexists. apply replace_head_kept. simpl. by rewrite Hc.
Qed.

Lemma wrapped_keeps_head (c : N) (s : str) :
  ∃ r, replace re_wrapped join_wrapped (c :: s) = c :: r.
Proof.
  unfold replace. cbn [replace_from].
  destruct (match_here re_wrapped (c :: s)) as [rest|] eqn:Hm; [|by eexists].
  simpl in Hm. destruct (no_break c); [|done].
  destruct s as [|d [|e s]]; try done.
  - by destruct (is_nl d).
  - destruct (is_nl d); [|done]. destruct (is_letter e); [|done].
    injection Hm as <-.
    replace (length (c :: d :: e :: s) - length s)%nat with 3%nat
      by (simpl; lia).
    simpl. by eexists.
Qed.

(** The first unit of a trimmed, non-empty text survives the four passes. *)
Lemma normalise_keeps_head (c : N) (s : str) :
  is_space c = false → ∃ r, normalise (c :: s) = c :: r.
Proof.
  intros Hc. unfold normalise.
  destruct (breaks_keep_head c s Hc) as [r1 ->].
  destruct (wrapped_keeps_head c r1) as [r2 ->].
  destruct (indent_keeps_head c r2 Hc) as [r3 ->].
  apply spaces_keep_head, Hc.
Qed.

(** ** The loop over the markers *)

Lemma markers_nonempty (m : str) : m ∈ markers → m ≠ [].
Proof.
  unfold markers. rewrite !elem_of_cons, elem_of_nil.
  intros [->|[->|[->|[->|[->|[]]]]]]; discriminate.
Qed.

Lemma scan_markers_absent (ms : list str) (t : str) :
  (∀ m, m ∈ ms → ¬ occurs m t) → scan_markers ms t = None.
Proof.
  induction ms as [|m ms IH]; intros Hno; simpl; [done|].
  destruct (includes m t) eqn:Hi.
  - apply includes_occurs in Hi. destruct (Hno m); [by left|done].
  - apply IH. intros m' Hm'. apply Hno. by right.
Qed.

Lemma scan_markers_first (ms : list str) (t m pre : str) :
  m ≠ [] → first_listed ms t m → before_first m t pre →
  scan_markers ms t =
    if truthy (trim pre) then Some (normalise (trim pre)) else None.
Proof.
  intros Hm (ms1 & ms2 & -> & Hocc & Hnot) Hb.
  induction ms1 as [|m' ms1 IH]; simpl.
  - apply includes_occurs in Hocc as ->.
    destruct (split_before_first m t pre Hm Hb) as [-> Hlen].
    by rewrite bool_decide_eq_true_2.
  - destruct (includes m' t) eqn:Hi.
    + apply includes_occurs in Hi. destruct (Hnot m'); [by left|done].
    + apply IH. intros m'' Hm''. apply Hnot. by right.
Qed.

Lemma scan_markers_nonempty (ms : list str) (t c : str) :
  scan_markers ms t = Some c → c ≠ [].
Proof.
  induction ms as [|m ms IH]; simpl; [done|].
  destruct (includes m t); [|done].
  case_bool_decide; [|done].
  destruct (trim_head (part 0 (split m t))) as [->|(x & r & -> & Hx)];
    [done|]. simpl.
  destruct (normalise_keeps_head x r Hx) as [r' ->]. by intros [= <-].
Qed.

(** When some marker of the list occurs in the text, one of them is the
    first listed one. *)
Lemma first_listed_exists (ms : list str) (t : str) :
  (∃ m, m ∈ ms ∧ occurs m t) → ∃ m, first_listed ms t m.
Proof.
  induction ms as [|m0 ms IH]; intros (m & Hm & Hocc).
  - by apply elem_of_nil in Hm.
  - destruct (includes m0 t) eqn:Hi.
    + exists m0, [], ms. split; [done|]. split; [by apply includes_occurs|].
      by intros m' Hm'%elem_of_nil.
    + assert (¬ occurs m0 t) as Hno
        by (rewrite <- includes_occurs; by rewrite Hi).
      apply elem_of_cons in Hm as [->|Hm]; [done|].
      destruct IH as (m1 & ms1 & ms2 & -> & Hocc1 & Hnot); [by exists m|].
      exists m1, (m0 :: ms1), ms2. split; [done|]. split; [done|].
      intros m' Hm'. apply elem_of_cons in Hm' as [->|Hm']; [done|].
      by apply Hnot.
Qed.

(** ** What the passes guarantee *)

(** A greedy repetition that ends the pattern takes the whole run. *)
Lemma greedy_last (p : N → bool) (least : nat) (s : str) :
  greedy p Some least s =
    if bool_decide (least ≤ length (takeWhile p s))%nat
    then Some (dropWhile p s) else None.
Proof.
  revert least. induction s as [|c s IH]; intros least.
  - cbn. destruct least; [done|]. by rewrite bool_decide_eq_false_2 by lia.
  - cbn [greedy takeWhile dropWhile]. destruct (p c) eqn:Hc.
    + rewrite IH. cbn [length].
      case_bool_decide as H1.
      * by rewrite bool_decide_eq_true_2 by lia.
      * destruct least as [|least]; [simpl in H1; lia|].
        simpl. by rewrite bool_decide_eq_false_2 by (simpl in H1; lia).
    + cbn [length]. destruct least; [done|].
      by rewrite bool_decide_eq_false_2 by lia.
Qed.

Lemma replace_from_skip (re : list atom) (sub : str → str) (x rest : str) :
  replace_from re sub (length x) (x ++ rest) = replace_from re sub 0 rest.
Proof.
  induction x as [|c x IH]; [by destruct rest|]. done.
Qed.

Lemma takeWhile_dropWhile (p : N → bool) (s : str) :
  takeWhile p s ++ dropWhile p s = s.
Proof.
  induction s as [|c s IH]; [done|]. simpl. destruct (p c); [|done].
  simpl. by rewrite IH.
Qed.

Lemma dropWhile_head (p : N → bool) (s : str) :
  match dropWhile p s with
  | c :: _ => p c = false
  | [] => True
  end.
Proof.
  induction s as [|c s IH]; [done|]. simpl. by destruct (p c) eqn:Hc.
Qed.

Lemma length_dropWhile (p : N → bool) (s : str) :
  (length (dropWhile p s) ≤ length s)%nat.
Proof.
  induction s as [|c s IH]; [done|]. simpl. destruct (p c); simpl; lia.
Qed.

(** The last pass, unfolded: a run of two or more white-space units
    becomes one space, anything else is copied. *)
Lemma spaces_unfold (c : N) (s : str) :
  replace re_spaces (fun _ => [SP]) (c :: s) =
    if is_space c && starts_with_space s
    then SP :: replace re_spaces (fun _ => [SP]) (dropWhile is_space s)
    else c :: replace re_spaces (fun _ => [SP]) s.
Proof.
  unfold replace. cbn [replace_from match_here re_spaces].
  rewrite greedy_last. cbn [takeWhile dropWhile].
  destruct (is_space c) eqn:Hc; cbn [andb].
  - destruct s as [|d s]; cbn [starts_with_space takeWhile dropWhile].
    + by rewrite bool_decide_eq_false_2 by (simpl; lia).
    + destruct (is_space d) eqn:Hd.
      * rewrite bool_decide_eq_true_2 by (simpl; lia).
        remember (takeWhile is_space s) as tw eqn:Htw.
        remember (dropWhile is_space s) as dw eqn:Hdw.
        assert (s = tw ++ dw) as Hs
          by (subst tw dw; symmetry; apply takeWhile_dropWhile).
        clear Htw Hdw. subst s.
        replace (length (c :: d :: tw ++ dw) - length dw)%nat
          with (S (S (length tw)))
          by (cbn [length]; rewrite length_app; lia).
        cbn [app]. f_equal.
        apply (replace_from_skip _ _ (d :: tw)).
      * by rewrite bool_decide_eq_false_2 by (simpl; lia).
  - by rewrite bool_decide_eq_false_2 by (simpl; lia).
Qed.

Lemma single_spaced_cons (a b : N) (r : str) :
  single_spaced (a :: b :: r)
  = negb (is_space a && is_space b) && single_spaced (b :: r).
Proof. reflexivity. Qed.

Lemma spaces_single_spaced_aux (n : nat) (s : str) :
  (length s ≤ n)%nat →
  single_spaced (replace re_spaces (fun _ => [SP]) s) = true
  ∧ (starts_with_space (replace re_spaces (fun _ => [SP]) s) = true →
     starts_with_space s = true).
Proof.
  revert s. induction n as [|n IH]; intros s Hlen.
  { destruct s; [done|simpl in Hlen; lia]. }
  destruct s as [|c s]; [done|]. rewrite spaces_unfold.
  destruct (is_space c && starts_with_space s) eqn:Hrun.
  - apply andb_true_iff in Hrun as [Hc Hs]. cbn [starts_with_space].
    split; [|done].
    pose proof (length_dropWhile is_space s) as Hl.
    destruct (IH (dropWhile is_space s)) as [H1 H2]; [simpl in Hlen; lia|].
    pose proof (dropWhile_head is_space s) as Hd.
    destruct (replace re_spaces _ (dropWhile is_space s)) as [|b r] eqn:Hr;
      [done|].
    rewrite single_spaced_cons, H1, andb_true_r.
    destruct (is_space b) eqn:Hb; [|by rewrite andb_false_r].
    specialize (H2 Hb). destruct (dropWhile is_space s); [done|].
    simpl in H2. congruence.
  - cbn [starts_with_space]. split; [|done].
    destruct (IH s) as [H1 H2]; [simpl in Hlen; lia|].
    destruct (replace re_spaces _ s) as [|b r] eqn:Hr; [done|].
    rewrite single_spaced_cons, H1, andb_true_r.
    destruct (is_space c) eqn:Hc; [|done]. cbn [andb] in *.
    destruct (is_space b) eqn:Hb; [|done].
    specialize (H2 Hb). congruence.
Qed.

(** After the passes no two consecutive units of the comment are white
    space. *)
Lemma normalise_single_spaced (s : str) : single_spaced (normalise s) = true.
Proof. unfold normalise. by eapply spaces_single_spaced_aux. Qed.

(** A pattern that matches nowhere leaves the text as it is. *)
Lemma replace_nowhere (re : list atom) (sub : str → str) (s : str) :
  (∀ i, match_here re (drop i s) = None ∨ drop i s = []) →
  replace re sub s = s.
Proof.
  unfold replace. induction s as [|c s IH]; intros H; [done|].
  cbn [replace_from]. destruct (H 0%nat) as [H0 | [=]].
  cbn [drop] in H0. rewrite H0.
  f_equal. apply IH. intros i. apply (H (S i)).
Qed.

Lemma in_drop (i : nat) (c : N) (s : str) : c ∈ drop i s → c ∈ s.
Proof.
  intros H. rewrite <- (take_drop i s). apply elem_of_app. by right.
Qed.

Lemma breaks_need_newline (s : str) :
  NL ∉ s → replace re_breaks (fun _ => [NL; NL]) s = s.
Proof.
  intros Hs. apply replace_nowhere. intros i.
  destruct (drop i s) as [|c r] eqn:Hd; [by right|]. left.
  assert (c ≠ NL) as Hc.
  { intros ->. apply Hs. apply (in_drop i). rewrite Hd. by left. }
  simpl. unfold is_nl. by apply N.eqb_neq in Hc as ->.
Qed.

Lemma indent_needs_newline (s : str) :
  NL ∉ s → replace re_indent (fun _ => [NL]) s = s.
Proof.
  intros Hs. apply replace_nowhere. intros i.
  destruct (drop i s) as [|c r] eqn:Hd; [by right|]. left.
  assert (c ≠ NL) as Hc.
  { intros ->. apply Hs. apply (in_drop i). rewrite Hd. by left. }
  simpl. unfold is_nl. by apply N.eqb_neq in Hc as ->.
Qed.

Lemma wrapped_needs_newline (s : str) :
  NL ∉ s → replace re_wrapped join_wrapped s = s.
Proof.
  intros Hs. apply replace_nowhere. intros i.
  destruct (drop i s) as [|c r] eqn:Hd; [by right|]. left.
  simpl. destruct (no_break c); [|done]. destruct r as [|d r]; [done|].
  assert (d ≠ NL) as Hc.
  { intros ->. apply Hs. apply (in_drop i). rewrite Hd. by right; left. }
  unfold is_nl. by apply N.eqb_neq in Hc as ->.
Qed.

Lemma spaces_need_run (s : str) :
  single_spaced s = true → replace re_spaces (fun _ => [SP]) s = s.
Proof.
  induction s as [|c s IH]; intros Hs; [done|]. rewrite spaces_unfold.
  destruct s as [|d s]; [by rewrite andb_false_r|].
  rewrite single_spaced_cons in Hs. apply andb_true_iff in Hs as [Hcd Hs].
  cbn [starts_with_space]. apply negb_true_iff in Hcd as ->.
  by rewrite IH.
Qed.

(** A comment of one line, without runs of white space, is returned as it
    is. *)
Lemma normalise_plain (s : str) :
  NL ∉ s → single_spaced s = true → normalise s = s.
Proof.
  intros Hnl Hs. unfold normalise.
  by rewrite breaks_need_newline, wrapped_needs_newline,
    indent_needs_newline, spaces_need_run.
Qed.




(** ** Forwarded-message comment *)

(** What the function returns for a mail with the text [t]. *)
Lemma extractForwardedText_cases (email : mail) (t : str) :
  text email = Some t →
  ((∀ m, m ∈ markers → ¬ occurs m t) → extractForwardedText email = None)
  ∧ (∀ m pre, first_listed markers t m → before_first m t pre →
       extractForwardedText email =
         if truthy (trim pre) then Some (normalise (trim pre)) else None).
Proof.
  intros Ht. unfold extractForwardedText. rewrite Ht. split.
  - intros Hno. destruct (truthy t); [|done]. by apply scan_markers_absent.
  - intros m pre Hfl Hb.
    assert (m ∈ markers) as Hm.
    { destruct Hfl as (ms1 & ms2 & -> & _). apply elem_of_app. right. by left. }
    apply markers_nonempty in Hm.
    destruct t as [|c t]; cbn [truthy negb].
    + destruct Hfl as (_ & _ & _ & (p & q & Hocc) & _). symmetry in Hocc.
      apply app_eq_nil in Hocc as [_ Hocc].
      by apply app_eq_nil in Hocc as [-> _].
    + by apply (scan_markers_first _ _ m).
Qed.




(** The three facts about missing comments. *)
Lemma extractForwardedText_null_cases (email : mail) :
  (text email = None ∨ text email = Some [] →
     extractForwardedText email = None)
  ∧ (∀ t m pre, text email = Some t → first_listed markers t m →
       before_first m t pre → trim pre = [] →
       extractForwardedText email = None)
  ∧ (∀ c, extractForwardedText email = Some c → c ≠ []).
Proof.
  split; [|split].
  - unfold extractForwardedText. by intros [->| ->].
  - intros t m pre Ht Hfl Hb Hblank.
    destruct (extractForwardedText_cases email t Ht) as (_ & H).
    rewrite (H m pre Hfl Hb). by rewrite Hblank.
  - unfold extractForwardedText. intros c.
    destruct (text email) as [t|]; [|done].
    destruct (truthy t); [|done]. apply scan_markers_nonempty.
Qed.

(** C10, as amended.  No comment is extracted when the mail has no text,
    or when the text before the first occurrence of the first listed
    marker that occurs is empty or white space only; an extracted comment
    is never empty. *)
Theorem C10_no_comment (email : mail) :
  (text email = None ∨ text email = Some [] →
     extractForwardedText email = None)
  ∧ (∀ t m pre, text email = Some t → first_listed markers t m →
       before_first m t pre → trim pre = [] →
       extractForwardedText email = None)
  ∧ (∀ c, extractForwardedText email = Some c → c ≠ []).
Proof. apply extractForwardedText_null_cases. Qed.

(** C10, as the specification states it, fails: [forwarded_bare] starts
    with a marker, so the text before that marker is empty, and yet a
    comment is extracted, because another marker, earlier in the list,
    occurs later in the text. *)
Lemma C10_marker_order_counterexample :
  marker 1 ∈ markers
  ∧ before_first (marker 1) forwarded_bare []
  ∧ trim [] = []
  ∧ extractForwardedText (mail_with_text forwarded_bare)
    = Some (marker 1 ++ lit " foo").
Proof.
  split; [|split; [|split]]; [| |done|by vm_compute].
  - unfold markers, marker. simpl. rewrite !elem_of_cons. by right; left.
  - split; [by eexists|]. intros. simpl. lia.
Qed.

(** ** The per-message handler *)

Lemma sends_nothing {A} (m : M A) (w : world) :
  sends_only (λ _, False) m →
  deliveries (trace (m w).2) = deliveries (trace w).
Proof.
  intros Hm. destruct (Hm w) as (sent & -> & Hsent).
  destruct sent as [|r sent]; [by rewrite app_nil_r|].
  by apply Forall_cons in Hsent as [[] _].
Qed.

Lemma deliveries_snoc (tr : list event) (ev : event) :
  deliveries [ev] = [] → deliveries (tr ++ [ev]) = deliveries tr.
Proof. intros H. by rewrite deliveries_app, H, app_nil_r. Qed.

(** In the scope of the [catch] clause the identifier [options] is not
    declared. *)
Lemma options_out_of_scope (senderEmail filename filePath : str) :
  identifier (catch_scope (handler_scope senderEmail filename filePath))
    "options" = throw (ReferenceError "options").
Proof. reflexivity. Qed.

(** So the [catch] clause never reaches its retry. *)
Lemma catchBlock_sends_nothing (senderEmail filename filePath : str)
    (telegramError : js_error) (w : world) :
  deliveries
    (trace (catchBlock (catch_scope (handler_scope senderEmail filename filePath))
              filePath filename telegramError w).2)
  = deliveries (trace w).
Proof.
  unfold catchBlock. rewrite options_out_of_scope.
  unfold mbind, M_bind, bind, emit, throw, ret. simpl.
  destruct (truthy (message telegramError)
            && includes (lit "message thread not found") (message telegramError));
    simpl; by rewrite deliveries_snoc.
Qed.

Lemma await_deliveries (c : call) (w : world) :
  deliveries (trace (await c w).2)
  = deliveries (trace w) ++ deliveries [Called c None].
Proof.
  unfold await. destruct (responses w) as [|[e|] rs]; simpl;
    by rewrite deliveries_app.
Qed.

(** Computations that send nothing, or the one request [r]. *)
Lemma quiet_sends_at_most {A} r (m : M A) :
  sends_only (λ _, False) m → sends_at_most r m.
Proof. intros Hm w. left. by apply sends_nothing. Qed.

Lemma sends_at_most_after {A B} r (m : M A) (k : A → M B) :
  sends_only (λ _, False) m → (∀ a, sends_at_most r (k a)) →
  sends_at_most r (m ≫= k).
Proof.
  intros Hm Hk w. unfold mbind, M_bind, bind.
  pose proof (sends_nothing m w Hm) as E.
  destruct (m w) as [[a|e] w1]; cbn [snd] in *.
  - rewrite <- E. apply Hk.
  - by left.
Qed.

Lemma sends_at_most_before {A B} r (m : M A) (k : A → M B) :
  sends_at_most r m → (∀ a, sends_only (λ _, False) (k a)) →
  sends_at_most r (m ≫= k).
Proof.
  intros Hm Hk w. unfold mbind, M_bind, bind.
  pose proof (Hm w) as E.
  destruct (m w) as [[a|e] w1]; cbn [snd] in *; [|done].
  by rewrite (sends_nothing (k a) w1 (Hk a)).
Qed.

Lemma sends_at_most_try_catch {A} r (m : M A) (h : js_error → M A) :
  sends_at_most r m → (∀ e, sends_only (λ _, False) (h e)) →
  sends_at_most r (try_catch m h).
Proof.
  intros Hm Hh w. unfold try_catch.
  pose proof (Hm w) as E.
  destruct (m w) as [[a|e] w1]; cbn [snd] in *; [done|].
  by rewrite (sends_nothing (h e) w1 (Hh e)).
Qed.

Lemma sends_at_most_await r : sends_at_most r (await (SendDocument r)).
Proof. intros w. right. by rewrite await_deliveries. Qed.

Lemma catchBlock_quiet (senderEmail filename filePath : str)
    (telegramError : js_error) :
  sends_only (λ _, False)
    (catchBlock (catch_scope (handler_scope senderEmail filename filePath))
       filePath filename telegramError).
Proof.
  intros w. exists []. by rewrite catchBlock_sends_nothing, app_nil_r.
Qed.

(** The handler sends nothing, or the one request it has built. *)
Lemma onMail_deliveries (e : env) (email : mail) :
  sends_at_most (expected_request e email) (onMail e email).
Proof.
  unfold onMail.
  apply sends_at_most_try_catch; [|intros; quiet]. cbv zeta.
  apply sends_at_most_after; [quiet|intros _].
  destruct (negb _); [apply quiet_sends_at_most; quiet|].
  apply sends_at_most_after; [quiet|intros _].
  apply sends_at_most_after; [apply convertEmailToPdf_sends_nothing|intros _].
  apply sends_at_most_after; [quiet|intros _].
  apply sends_at_most_try_catch; [|intros; apply catchBlock_quiet].
  unfold sendBlock. destruct (negb _); [apply quiet_sends_at_most; quiet|].
  apply sends_at_most_before; [|intros; quiet].
  apply sends_at_most_await.
Qed.






(** C3: the code does not do what the specification asks.  Sub-channel 99
    is configured, the delivery is made with it and fails with the
    thread-not-found error; the [catch] clause then reads [options], which
    is declared inside the [try] block and is out of scope, so a
    [ReferenceError] is raised and logged by the outer handler.  No second
    request is sent. *)
Theorem C3_retry_is_never_made :
  let w := (onMail env99 mail99 world99).2 in
  deliveries (trace w) = [expected_request env99 mail99]
  ∧ message_thread_id (extra (expected_request env99 mail99)) = Some 99%Z
  ∧ trace w !! 10%nat
    = Some (Called (SendDocument (expected_request env99 mail99))
              (Some thread_not_found))
  ∧ last (trace w)
    = Some (ConsoleError "Error processing email:" (ReferenceError "options"))
  ∧ responses w = [].
Proof.
  cbv zeta. repeat split; by vm_compute.
Qed.

(** Whatever the mail and the answers of the collaborators, the handler
    calls [sendDocument] at most once. *)
Lemma onMail_never_retries (e : env) (email : mail)
    (rs : list (option js_error)) :
  (length (deliveries (trace (onMail e email (start rs)).2)) ≤ 1)%nat.
Proof.
  destruct (onMail_deliveries e email (start rs)) as [-> | ->]; simpl; lia.
Qed.

(** Had [chatId] and [options] been declared where the [catch] clause can
    see them, the clause would retry once, with the same chat, file and
    caption and without the sub-channel. *)
Lemma catchBlock_retries_in_scope (chat cap filePath filename : str)
    (opts : options) (outer : scope) (thread : Z) (w : world) :
  message_thread_id opts = Some thread → thread ≠ 0%Z →
  deliveries
    (trace (catchBlock (catch_scope (try_block_scope chat cap opts outer))
              filePath filename thread_not_found w).2)
  = deliveries (trace w)
    ++ [{| chatId := chat; source := filePath; filename := filename;
           extra := {| caption := caption opts; message_thread_id := None |} |}].
Proof.
  intros Hthread Hnz. unfold catchBlock.
  replace (truthy (message thread_not_found)
           && includes (lit "message thread not found") (message thread_not_found))
    with true by (by vm_compute).
  unfold mbind, M_bind, bind, emit, identifier, try_catch. cbn [resolve catch_scope try_block_scope app String.eqb Ascii.eqb Bool.eqb].
  cbn. rewrite Hthread. rewrite bool_decide_eq_true_2 by done.
  unfold await. cbn [responses trace].
  destruct (responses w) as [|[err|] rs]; cbn;
    rewrite ?deliveries_app; cbn; by rewrite ?app_nil_r, <- ?app_assoc.
Qed.

(** ** Routing *)

Ltac case_tests :=
  repeat match goal with
         | |- context [(?a <=? ?b)] => destruct (N.leb_spec a b)
         | |- context [(?a =? ?b)] => destruct (N.eqb_spec a b)
         end; cbn [andb negb].

(** A lower-cased unit is not an upper-case letter of the model. *)
Lemma lower_unit_range (c : N) :
  ¬ (65 ≤ lower_unit c ≤ 90)
  ∧ ¬ (192 ≤ lower_unit c ≤ 222 ∧ lower_unit c ≠ 215)
  ∧ ¬ (1040 ≤ lower_unit c ≤ 1071)
  ∧ ¬ (1024 ≤ lower_unit c ≤ 1039).
Proof. unfold lower_unit. case_tests; lia. Qed.

Lemma lower_unit_fixed (d : N) :
  ¬ (65 ≤ d ≤ 90) → ¬ (192 ≤ d ≤ 222 ∧ d ≠ 215) →
  ¬ (1040 ≤ d ≤ 1071) → ¬ (1024 ≤ d ≤ 1039) →
  lower_unit d = d.
Proof. intros. unfold lower_unit. case_tests; lia. Qed.

Lemma lower_unit_idemp (c : N) : lower_unit (lower_unit c) = lower_unit c.
Proof.
  destruct (lower_unit_range c) as (H1 & H2 & H3 & H4).
  by apply lower_unit_fixed.
Qed.

Lemma toLowerCase_idemp (s : str) : toLowerCase (toLowerCase s) = toLowerCase s.
Proof.
  unfold toLowerCase. rewrite map_map. apply map_ext. apply lower_unit_idemp.
Qed.



(** [setTopicForEmail] keeps the keys lower-case. *)
Lemma setTopicForEmail_keys (saved : bool) (cfg : settings) (p topicId : str) :
  keys_lower_case cfg → keys_lower_case (setTopicForEmail saved cfg p topicId).2.
Proof.
  intros Hcfg. unfold setTopicForEmail.
  destruct (negb (truthy p)); [done|].
  destruct (parseInt topicId) as [n|]; [|done].
  destruct (0 <? n)%Z; [|done]. destruct saved; [|done].
  intros k. simpl. destruct (decide (toLowerCase p = k)) as [<-|Hne].
  - intros _. apply toLowerCase_idemp.
  - rewrite lookup_insert_ne by done. apply Hcfg.
Qed.








(** The guard [domain && ...]: with an empty domain the wildcard key is not
    tried, even when the store has the key [*@]. *)
Example empty_domain_goes_to_default :
  getTopicForEmail {| defaultTopic := Some 7%Z;
                      topicMappings := {[ lit "*@" := 5%Z ]} |} (lit "bob@")
  = Some 7%Z.
Proof. by vm_compute. Qed.

(** A sender that is not lower-case is looked up lower-cased. *)
Example sender_is_lower_cased :
  getTopicForEmail settings_alice (lit "Alice@Example.COM") = Some 42%Z.
Proof. by vm_compute. Qed.

(** X10.  A sender without ['@'] gets the topic of its exact entry or
    else the default: no wildcard entry is ever consulted for it. *)
Lemma getTopicForEmail_no_domain (cfg : settings) (sender : str) :
  sender ≠ [] → AT ∉ toLowerCase sender →
  getTopicForEmail cfg sender =
    match topicMappings cfg !! toLowerCase sender with
    | Some t => Some t
    | None => defaultTopic cfg
    end.
Proof.
  intros Hne Hat. unfold getTopicForEmail.
  destruct sender as [|c sender]; [done|]. cbn [truthy negb].
  destruct (topicMappings cfg !! toLowerCase (c :: sender)); [done|].
  by rewrite split_unit_absent.
Qed.

(** ** Retention sweep *)




(** ** Mailbox watcher *)

Lemma armed_app (l1 l2 : list Watcher.connection) :
  armed (l1 ++ l2) = (armed l1 + armed l2)%nat.
Proof. unfold armed. by rewrite filter_app, length_app. Qed.

Lemma armed_cons (k : Watcher.connection) (l : list Watcher.connection) :
  armed (k :: l) = ((if Watcher.on_error k then 1 else 0) + armed l)%nat.
Proof.
  unfold armed. rewrite filter_cons.
  destruct (Watcher.on_error k); by case_decide.
Qed.

Lemma armed_insert (l : list Watcher.connection) (c : nat)
    (k k' : Watcher.connection) :
  l !! c = Some k →
  (armed (<[c := k']> l) + (if Watcher.on_error k then 1 else 0)
   = armed l + (if Watcher.on_error k' then 1 else 0))%nat.
Proof.
  intros Hc. rewrite insert_take_drop by (by eapply lookup_lt_Some).
  rewrite <- (take_drop_middle l c k Hc) at 3.
  rewrite !armed_app, !armed_cons. lia.
Qed.

(** A step never adds to what is pending. *)
Lemma pending_step (s : Watcher.state) (ev : Watcher.event) :
  (pending (Watcher.step s ev) ≤ pending s)%nat.
Proof.
  unfold Watcher.step. destruct (Watcher.uncaught s); [done|].
  destruct ev as [c|c|c|].
  - destruct (Watcher.connections s !! c) as [k|] eqn:Hc; [|done].
    destruct (Watcher.on_ready k); [|done].
    unfold pending. cbn -[armed].
    pose proof (armed_insert _ c k
      {| Watcher.on_ready := false; Watcher.on_error := Watcher.on_error k;
         Watcher.on_end := Watcher.on_end k |} Hc) as H.
    cbn in H. lia.
  - destruct (Watcher.connections s !! c) as [k|] eqn:Hc; [|done].
    destruct (Watcher.on_error k) eqn:He; [|done].
    pose proof (armed_insert _ c k
      {| Watcher.on_ready := Watcher.on_ready k; Watcher.on_error := false;
         Watcher.on_end := Watcher.on_end k |} Hc) as H.
    rewrite He in H. cbn in H.
    case_bool_decide; unfold pending; cbn -[armed]; rewrite ?length_app; cbn -[armed]; lia.
  - destruct (Watcher.connections s !! c) as [k|] eqn:Hc; [|done].
    destruct (Watcher.on_end k); [|done].
    unfold pending. cbn -[armed].
    pose proof (armed_insert _ c k
      {| Watcher.on_ready := Watcher.on_ready k;
         Watcher.on_error := Watcher.on_error k; Watcher.on_end := false |} Hc)
      as H.
    cbn in H. lia.
  - destruct (Watcher.timers s) as [|t ts] eqn:Ht; [done|].
    unfold pending. rewrite Ht. cbn -[armed]. rewrite armed_app, armed_cons. cbn. lia.
Qed.

Lemma pending_run (evs : list Watcher.event) (s : Watcher.state) :
  (pending (Watcher.run s evs) ≤ pending s)%nat.
Proof.
  revert s. induction evs as [|ev evs IH]; intros s; [done|].
  change (Watcher.run s (ev :: evs)) with (Watcher.run (Watcher.step s ev) evs).
  etrans; [apply IH|]. apply pending_step.
Qed.

(** At most one thing is pending in a reachable state. *)
Lemma reachable_pending (s : Watcher.state) : reachable s → (pending s ≤ 1)%nat.
Proof. intros [evs ->]. etrans; [apply pending_run|]. done. Qed.

(** With nothing pending, nothing is ever scheduled and no connection is
    ever made. *)
Lemma quiescent_step (s : Watcher.state) (ev : Watcher.event) :
  pending s = 0%nat →
  Watcher.timers (Watcher.step s ev) = []
  ∧ length (Watcher.connections (Watcher.step s ev))
    = length (Watcher.connections s).
Proof.
  intros Hp. assert (Watcher.timers s = []) as Ht.
  { unfold pending in Hp. destruct (Watcher.timers s); [done|]. simpl in Hp. lia. }
  unfold Watcher.step. destruct (Watcher.uncaught s); [by split|].
  destruct ev as [c|c|c|].
  - destruct (Watcher.connections s !! c) as [k|]; [|by split].
    destruct (Watcher.on_ready k); [|by split]. cbn. by rewrite length_insert.
  - destruct (Watcher.connections s !! c) as [k|] eqn:Hc; [|by split].
    destruct (Watcher.on_error k) eqn:He; [|by split]. exfalso.
    unfold pending in Hp.
    pose proof (armed_insert _ c k k Hc) as H.
    rewrite <- (take_drop_middle _ c k Hc), armed_app, armed_cons, He in Hp.
    lia.
  - destruct (Watcher.connections s !! c) as [k|]; [|by split].
    destruct (Watcher.on_end k); [|by split]. cbn. by rewrite length_insert.
  - by rewrite Ht.
Qed.

Lemma quiescent_run (evs : list Watcher.event) (s : Watcher.state) :
  pending s = 0%nat →
  Watcher.timers (Watcher.run s evs) = []
  ∧ length (Watcher.connections (Watcher.run s evs))
    = length (Watcher.connections s).
Proof.
  revert s. induction evs as [|ev evs IH]; intros s Hp.
  - cbn. split; [|done]. unfold pending in Hp.
    destruct (Watcher.timers s); [done|]. simpl in Hp. lia.
  - change (Watcher.run s (ev :: evs)) with (Watcher.run (Watcher.step s ev) evs).
    pose proof (pending_step s ev) as Hle.
    destruct (quiescent_step s ev Hp) as [_ Hlen].
    destruct (IH (Watcher.step s ev)) as [H1 H2]; [lia|].
    split; [done|]. congruence.
Qed.

Lemma error_step_below (s : Watcher.state) (c : nat) :
  error_listener s c →
  (Watcher.reconnectAttempts s < Watcher.maxReconnectAttempts)%nat →
  Watcher.reconnectAttempts (Watcher.step s (Watcher.Error c))
    = S (Watcher.reconnectAttempts s)
  ∧ Watcher.timers (Watcher.step s (Watcher.Error c))
    = Watcher.timers s ++ [Watcher.reconnectDelay].
Proof.
  intros (Hlive & k & Hc & He) Hlt. unfold Watcher.step.
  rewrite Hlive, Hc, He. cbn -[Watcher.maxReconnectAttempts].
  by rewrite bool_decide_eq_true_2.
Qed.

Lemma error_step_exhausted (s : Watcher.state) (c : nat) :
  reachable s → error_listener s c →
  (Watcher.maxReconnectAttempts ≤ Watcher.reconnectAttempts s)%nat →
  Watcher.reconnectAttempts (Watcher.step s (Watcher.Error c))
    = Watcher.reconnectAttempts s
  ∧ pending (Watcher.step s (Watcher.Error c)) = 0%nat
  ∧ length (Watcher.connections (Watcher.step s (Watcher.Error c)))
    = length (Watcher.connections s).
Proof.
  intros Hreach (Hlive & k & Hc & He) Hge. unfold Watcher.step.
  rewrite Hlive, Hc, He. cbn -[Watcher.maxReconnectAttempts armed].
  rewrite bool_decide_eq_false_2 by lia.
  cbn -[armed]. split; [done|]. split; [|by rewrite length_insert].
  pose proof (reachable_pending s Hreach) as Hp.
  pose proof (armed_insert _ c k
    {| Watcher.on_ready := Watcher.on_ready k; Watcher.on_error := false;
       Watcher.on_end := Watcher.on_end k |} Hc) as H.
  rewrite He in H. unfold pending in *. cbn -[armed] in *. lia.
Qed.

(** C6, as amended.  In every reachable state of the watcher: an error on
    a connection whose error listener is registered, while the counter is
    below 10, increments the counter and schedules exactly one reconnection
    after the fixed delay of 10 seconds; such an error with the counter at
    10 changes neither the counter nor the timers, and from then on no
    reconnection is ever scheduled and no connection is ever made; a
    successful connection resets the counter to zero; an end event
    schedules nothing, changes no counter and makes no connection; and a
    timer that fires makes exactly one new connection. *)
Theorem C6_reconnection (s : Watcher.state) (c : nat) :
  reachable s →
  (error_listener s c →
     ((Watcher.reconnectAttempts s < 10)%nat →
        Watcher.reconnectAttempts (Watcher.step s (Watcher.Error c))
          = S (Watcher.reconnectAttempts s)
        ∧ Watcher.timers (Watcher.step s (Watcher.Error c))
          = Watcher.timers s ++ [10000])
     ∧ ((10 ≤ Watcher.reconnectAttempts s)%nat →
        Watcher.reconnectAttempts (Watcher.step s (Watcher.Error c))
          = Watcher.reconnectAttempts s
        ∧ ∀ evs,
            Watcher.timers (Watcher.run (Watcher.step s (Watcher.Error c)) evs) = []
            ∧ length (Watcher.connections
                        (Watcher.run (Watcher.step s (Watcher.Error c)) evs))
              = length (Watcher.connections s)))
  ∧ (ready_listener s c →
     Watcher.reconnectAttempts (Watcher.step s (Watcher.Ready c)) = 0%nat)
  ∧ (Watcher.timers (Watcher.step s (Watcher.End c)) = Watcher.timers s
     ∧ Watcher.reconnectAttempts (Watcher.step s (Watcher.End c))
       = Watcher.reconnectAttempts s
     ∧ length (Watcher.connections (Watcher.step s (Watcher.End c)))
       = length (Watcher.connections s))
  ∧ (∀ t ts, Watcher.uncaught s = false → Watcher.timers s = t :: ts →
     Watcher.timers (Watcher.step s Watcher.Timeout) = ts
     ∧ length (Watcher.connections (Watcher.step s Watcher.Timeout))
       = S (length (Watcher.connections s))).
Proof.
  intros Hreach. split; [|split; [|split]].
  - intros Hl. split.
    + intros Hlt. by apply error_step_below.
    + intros Hge.
      destruct (error_step_exhausted s c Hreach Hl Hge) as (H1 & H2 & H3).
      split; [done|]. intros evs.
      destruct (quiescent_run evs _ H2) as [H4 H5]. split; [done|]. congruence.
  - intros (Hlive & k & Hc & Hr). unfold Watcher.step.
    by rewrite Hlive, Hc, Hr.
  - unfold Watcher.step. destruct (Watcher.uncaught s); [done|].
    destruct (Watcher.connections s !! c) as [k|]; [|done].
    destruct (Watcher.on_end k); [|done]. cbn. by rewrite length_insert.
  - intros t ts Hlive Ht. unfold Watcher.step. rewrite Hlive, Ht. cbn.
    split; [done|]. rewrite length_app. cbn. lia.
Qed.

(** The first failure of the first connection: the counter becomes 1 and
    one reconnection is scheduled, 10 seconds ahead. *)
Lemma C6_reconnection_witness :
  reachable Watcher.setupEmailListener
  ∧ Watcher.reconnectAttempts
      (Watcher.step Watcher.setupEmailListener (Watcher.Error 0)) = 1%nat
  ∧ Watcher.timers
      (Watcher.step Watcher.setupEmailListener (Watcher.Error 0)) = [10000].
Proof.
  assert (reachable Watcher.setupEmailListener) as Hreach by (by exists []).
  split; [done|].
  destruct (C6_reconnection Watcher.setupEmailListener 0 Hreach)
    as (Herr & _).
  destruct Herr as [Hbelow _].
  - split; [done|]. eexists. by split.
  - apply Hbelow. cbn. lia.
Defined.

(** C6, as the specification states it, fails: after ten failed
    connections the counter is 10 and the eleventh connection still has its
    error listener; its error is handled, and the counter is not
    incremented (the guard [reconnectAttempts < maxReconnectAttempts] is
    tested before the increment). *)
Lemma C6_counter_counterexample :
  Watcher.reconnectAttempts (Watcher.run Watcher.setupEmailListener ten_failures)
    = 10%nat
  ∧ error_listener (Watcher.run Watcher.setupEmailListener ten_failures) 10
  ∧ Watcher.reconnectAttempts
      (Watcher.step (Watcher.run Watcher.setupEmailListener ten_failures)
         (Watcher.Error 10)) = 10%nat
  ∧ Watcher.timers
      (Watcher.step (Watcher.run Watcher.setupEmailListener ten_failures)
         (Watcher.Error 10)) = [].
Proof.
  split; [by vm_compute|]. split; [|split; by vm_compute].
  split; [by vm_compute|]. eexists. split; by vm_compute.
Qed.

(** ** Document renderer *)

Ltac run_renderer :=
  unfold convertEmailToPdf, primaryPath, fallbackPath, try_finally, try_catch,
    mbind, M_bind, bind, await, emit, ret, throw, start;
  cbn -[processEmailContent createSimpleTextEmail];
  repeat (match goal with
          | |- context [match ?l with [] => _ | _ :: _ => _ end] =>
              is_var l; destruct l as [|[?|] ?]
          end; cbn -[processEmailContent createSimpleTextEmail]).





(** An error of [browser.close()] in the [finally] block replaces the
    result, even that of a primary path that succeeded. *)
Lemma close_failure_overrides (rt : runtime) (email : mail) (e : js_error) :
  (convertEmailToPdf rt email (start (replicate 6 None ++ [Some e]))).1
    = Throw e
  ∧ primary_errors
      (trace (convertEmailToPdf rt email (start (replicate 6 None ++ [Some e]))).2)
    = [].
Proof. split; reflexivity. Qed.

(** ** HTML escaping *)

Lemma replace_unit_flat_map (c : N) (by_ : str) (s : str) :
  replace_unit c by_ s = flat_map (λ x, if x =? c then by_ else [x]) s.
Proof.
  unfold replace_unit, replace. induction s as [|x s IH]; [done|].
  cbn [replace_from match_here flat_map]. rewrite N.eqb_sym.
  destruct (x =? c).
  - replace (length (x :: s) - length s)%nat with 1%nat by (simpl; lia).
    cbn [take]. by rewrite IH.
  - by rewrite IH.
Qed.

Lemma flat_map_flat_map (f g : N → str) (s : str) :
  flat_map f (flat_map g s) = flat_map (λ x, flat_map f (g x)) s.
Proof.
  induction s as [|x s IH]; [done|]. simpl. by rewrite flat_map_app, IH.
Qed.

Lemma flat_map_singleton (f : N → str) (x : N) : flat_map f [x] = f x.
Proof. simpl. apply app_nil_r. Qed.

(** The five replacements, one after the other, amount to replacing every
    unit on its own. *)
Lemma escapeHtml_units (t : str) : escapeHtml t = flat_map escape_unit t.
Proof.
  unfold escapeHtml. destruct t as [|c0 t0]; [done|]. cbn [truthy negb].
  generalize (c0 :: t0). clear. intros t.
  rewrite !replace_unit_flat_map, !flat_map_flat_map.
  apply flat_map_ext. intros x.
  unfold escape_unit, is_markup, entity, QUOT.
  destruct (N.eqb_spec x 38) as [->|H1]; [done|].
  destruct (N.eqb_spec x 60) as [->|H2]; [done|].
  destruct (N.eqb_spec x 62) as [->|H3]; [done|].
  destruct (N.eqb_spec x 34) as [->|H4]; [done|].
  destruct (N.eqb_spec x 39) as [->|H5]; [done|].
  apply N.eqb_neq in H1, H2, H3, H4, H5.
  cbn [orb]. rewrite flat_map_singleton, H2, flat_map_singleton, H3,
    flat_map_singleton, H4, flat_map_singleton, H5. done.
Qed.



(** The name of an attachment, by contrast, is interpolated as it is. *)
Lemma attachment_name_is_raw (rt : runtime) (att : attachment) :
  truthy (fileName att) = true →
  attachmentsList rt [att]
  = lit "<li>" ++ fileName att ++ lit " (" ++ formatBytes rt (byteLength att)
    ++ lit ")</li>".
Proof.
  intros H. unfold attachmentsList. cbn [map concat]. rewrite H.
  by rewrite app_nil_r.
Qed.

(* ===================================================================== *)
(** * Part III: the rest of the code                                       *)
(* ===================================================================== *)

(** ** Effects: computations are independent of the trace they find *)

Lemma framed_ret {A} (a : A) : framed (ret a).
Proof. intros rs t. unfold ret, start. simpl. by rewrite app_nil_r. Qed.

Lemma framed_throw {A} (e : js_error) : framed (@throw A e).
Proof. intros rs t. unfold throw, start. simpl. by rewrite app_nil_r. Qed.

Lemma framed_emit (ev : event) : framed (emit ev).
Proof. intros rs t. reflexivity. Qed.

Lemma framed_await (c : call) : framed (await c).
Proof. intros rs t. unfold await, start. simpl. by destruct rs as [|[e|] rs]. Qed.

Lemma framed_bind {A B} (m : M A) (k : A → M B) :
  framed m → (∀ a, framed (k a)) → framed (m ≫= k).
Proof.
  intros Hm Hk rs t. unfold mbind, M_bind, bind. rewrite (Hm rs t).
  destruct (m (start rs)) as [[a|e] [rs1 t1]]; cbn [fst snd responses trace].
  - rewrite (Hk a rs1 (t ++ t1)), (Hk a rs1 t1). cbn [fst snd responses trace].
    by rewrite app_assoc.
  - done.
Qed.

Lemma framed_try_catch {A} (m : M A) (h : js_error → M A) :
  framed m → (∀ e, framed (h e)) → framed (try_catch m h).
Proof.
  intros Hm Hh rs t. unfold try_catch. rewrite (Hm rs t).
  destruct (m (start rs)) as [[a|e] [rs1 t1]]; cbn [fst snd responses trace].
  - done.
  - rewrite (Hh e rs1 (t ++ t1)), (Hh e rs1 t1). cbn [fst snd responses trace].
    by rewrite app_assoc.
Qed.

Lemma framed_try_finally {A} (m : M A) (c : M unit) :
  framed m → framed c → framed (try_finally m c).
Proof.
  intros Hm Hc rs t. unfold try_finally. rewrite (Hm rs t).
  destruct (m (start rs)) as [r [rs1 t1]]; cbn [fst snd responses trace].
  rewrite (Hc rs1 (t ++ t1)), (Hc rs1 t1).
  destruct (c (start rs1)) as [[u|e] [rs2 t2]]; cbn [fst snd responses trace];
    by rewrite app_assoc.
Qed.

Lemma framed_identifier (sc : scope) (x : string) : framed (identifier sc x).
Proof.
  unfold identifier. destruct (resolve x sc); [apply framed_ret|apply framed_throw].
Qed.

Ltac framing :=
  repeat first
    [ apply framed_ret | apply framed_throw | apply framed_emit
    | apply framed_await | apply framed_identifier
    | apply framed_bind; [|intros ?]
    | apply framed_try_catch; [|intros ?]
    | apply framed_try_finally
    | match goal with
      | |- framed (if ?b then _ else _) => destruct b
      | |- framed (match ?x with _ => _ end) => destruct x
      end ].

Lemma convertEmailToPdf_framed rt email : framed (convertEmailToPdf rt email).
Proof. unfold convertEmailToPdf, primaryPath, fallbackPath. framing. Qed.

Lemma catchBlock_framed sc filePath filename err :
  framed (catchBlock sc filePath filename err).
Proof. unfold catchBlock. framing. Qed.

Lemma sendBlock_framed e email s f p n t : framed (sendBlock e email s f p n t).
Proof. unfold sendBlock. framing. Qed.

Lemma onMail_framed e email : framed (onMail e email).
Proof.
  unfold onMail. cbv zeta.
  apply framed_try_catch; [|intros; framing].
  apply framed_bind; [framing|intros _].
  destruct (negb _); [framing|].
  apply framed_bind; [framing|intros _].
  apply framed_bind; [apply convertEmailToPdf_framed|intros _].
  apply framed_bind; [framing|intros _].
  apply framed_try_catch; [apply sendBlock_framed|intros; apply catchBlock_framed].
Qed.

Lemma framed_appends {A} (m : M A) (w : world) :
  framed m → ∃ tail, trace (m w).2 = trace w ++ tail.
Proof. intros Hm. destruct w as [rs t]. rewrite (Hm rs t). by eexists. Qed.

(** ** Document renderer: the browser is closed *)





Lemma convertEmailToPdf_returns (rt : runtime) (email : mail)
    (rs : list (option js_error)) (x : rendering) :
  (convertEmailToPdf rt email (start rs)).1 = Return x →
  last (trace (convertEmailToPdf rt email (start rs)).2) = Some (Called Close None).
Proof.
  run_renderer.
  all: (intros H; try discriminate H).
  all: reflexivity.
Qed.

Lemma convertEmailToPdf_ends_closed (rt : runtime) (email : mail) (w w1 : world)
    (x : rendering) :
  convertEmailToPdf rt email w = (Return x, w1) →
  ∃ pre, trace w1 = pre ++ [Called Close None]
         ∧ deliveries (trace w1) = deliveries (trace w).
Proof.
  intros Hc.
  pose proof (sends_nothing (convertEmailToPdf rt email) w
                (convertEmailToPdf_sends_nothing _ rt email)) as Hd.
  destruct w as [rs t]. rewrite (convertEmailToPdf_framed rt email rs t) in Hc, Hd.
  injection Hc as Hx <-. cbn [trace snd] in *.
  apply convertEmailToPdf_returns in Hx.
  destruct (proj1 (last_Some _ _) Hx) as [pre' Hpre].
  rewrite Hpre in *. exists (t ++ pre'). split; [by rewrite app_assoc|done].
Qed.

(** ** Per-message handler: the order of the calls *)

Lemma catchBlock_result (senderEmail filename filePath : str) (err : js_error)
    (w : world) (o : outcome unit) (w' : world) :
  catchBlock (catch_scope (handler_scope senderEmail filename filePath))
    filePath filename err w = (o, w') →
  deliveries (trace w') = deliveries (trace w)
  ∧ ∃ tail, trace w' = trace w ++ tail.
Proof.
  intros H. split.
  - rewrite <- (catchBlock_sends_nothing senderEmail filename filePath err w).
    by rewrite H.
  - destruct (framed_appends
                (catchBlock (catch_scope (handler_scope senderEmail filename filePath))
                   filePath filename err) w) as [tail Ht];
      [apply catchBlock_framed|].
    rewrite H in Ht. by exists tail.
Qed.

Lemma onMail_run (e : env) (email : mail) (rs : list (option js_error))
    (o : outcome unit) (w : world) :
  onMail e email (start rs) = (o, w) →
  deliveries (trace w) = []
  ∨ ∃ pre o post,
      trace w = pre ++ [Called Close None;
                        Called (WriteFile (source (expected_request e email))) None;
                        Called (SendDocument (expected_request e email)) o]
                ++ post.
Proof.
  unfold onMail. cbv zeta.
  unfold try_catch at 1. unfold mbind, M_bind, bind. unfold emit at 1 2 3.
  cbn [start responses trace app].
  destruct (negb (isWhitelisted _ _)); [intros [= <- <-]; by left|].
  match goal with
  | |- context [convertEmailToPdf ?rt ?m ?w] =>
      pose proof (sends_nothing (convertEmailToPdf rt m) w
                    (convertEmailToPdf_sends_nothing _ rt m)) as Hd0;
      destruct (convertEmailToPdf rt m w) as [[x|err] w1] eqn:Hc
  end.
  2:{ intros [= <- <-]. left. cbn in *. by rewrite deliveries_app, Hd0. }
  apply convertEmailToPdf_ends_closed in Hc as (pre & Hpre & Hd).
  cbn [trace app] in Hd. clear Hd0.
  unfold await at 1.
  destruct (responses w1) as [|[e1|] rs1]; cbn [trace snd];
    [|intros [= <- <-]; left; cbn; by rewrite !deliveries_app, Hd|].
  all: unfold try_catch, sendBlock.
  all: destruct (negb (bot_initialised e)).
  1,3: unfold throw at 1;
       destruct (catchBlock _ _ _ _ _) as [[[]|err2] w3] eqn:Hcb;
       apply catchBlock_result in Hcb as [Hd3 _]; cbn [trace] in Hd3;
       intros [= <- <-]; left; cbn [emit trace snd];
       rewrite ?deliveries_app, Hd3, !deliveries_app, Hd; done.
  all: unfold mbind, M_bind, bind; unfold await at 1; cbn [responses trace].
  2: destruct rs1 as [|[e2|] rs2].
  1,2,4: unfold emit at 1; intros [= <- <-]; right;
         exists pre, None, [ConsoleLog "processed and sent to Telegram"];
         cbn [trace snd]; rewrite Hpre; by rewrite <- !app_assoc.
  destruct (catchBlock _ _ _ _ _) as [[[]|err2] w3] eqn:Hcb;
    apply catchBlock_result in Hcb as [_ [tail Ht]]; cbn [trace] in Ht;
    intros [= <- <-]; right; cbn [emit trace snd]; rewrite Ht, Hpre.
  - exists pre, (Some e2), tail. by rewrite <- !app_assoc.
  - exists pre, (Some e2), (tail ++ [ConsoleError "Error processing email:" err2]).
    by rewrite <- !app_assoc.
Qed.

(** X3.  Every call to [sendDocument] comes right after the successful write of
    the file it streams, which comes right after the browser was closed
    without error: the handler never sends a file that it has not
    written. *)
Theorem delivery_follows_write (e : env) (email : mail)
    (rs : list (option js_error)) (r : request) :
  r ∈ deliveries (trace (onMail e email (start rs)).2) →
  ∃ pre o post,
    trace (onMail e email (start rs)).2
    = pre ++ [Called Close None; Called (WriteFile (source r)) None;
              Called (SendDocument r) o] ++ post.
Proof.
  intros Hr.
  assert (r = expected_request e email) as ->.
  { destruct (onMail_deliveries e email (start rs)) as [E|E];
      rewrite E in Hr; simpl in Hr.
    - by apply elem_of_nil in Hr.
    - by apply list_elem_of_singleton in Hr. }
  destruct (onMail e email (start rs)) as [o w] eqn:Hrun.
  apply onMail_run in Hrun as [Hnone|Hsome]; [|done].
  cbn [snd] in Hr. rewrite Hnone in Hr. by apply elem_of_nil in Hr.
Qed.

Lemma delivery_follows_write_witness :
  ∃ pre o post,
    trace (onMail env_open mail_hi (start [])).2
    = pre ++ [Called Close None;
              Called (WriteFile (source (expected_request env_open mail_hi))) None;
              Called (SendDocument (expected_request env_open mail_hi)) o]
      ++ post.
Proof.
  apply (delivery_follows_write env_open mail_hi []). by vm_compute; left.
Defined.

(** X2.  The handler calls [sendDocument] at most once for a mail, whatever
    the answers of the collaborators; and for a sender that the allow-list
    rejects it calls nothing at all: no browser is launched, no file is
    written, no message is sent. *)
Theorem one_delivery_at_most (e : env) (email : mail)
    (rs : list (option js_error)) :
  (length (deliveries (trace (onMail e email (start rs)).2)) ≤ 1)%nat
  ∧ (isWhitelisted (whitelist e) (extractSenderEmail (from email)) = false →
     onMail e email (start rs)
     = (Return tt,
        {| responses := rs;
           trace := [ConsoleLog "Received email from:";
                     ConsoleLog "is not whitelisted. Ignoring."] |})).
Proof.
  split.
  - destruct (onMail_deliveries e email (start rs)) as [-> | ->]; simpl; lia.
  - intros Hw. unfold onMail. by rewrite Hw.
Qed.


(** Without a messaging client nothing is sent. *)
Lemma uninitialised_bot_sends_nothing (e : env) (email : mail)
    (rs : list (option js_error)) :
  bot_initialised e = false →
  deliveries (trace (onMail e email (start rs)).2) = [].
Proof.
  intros Hbot.
  apply (sends_nothing (onMail e email) (start rs)).
  unfold onMail. cbv zeta.
  apply sends_only_try_catch; [|intros; quiet].
  apply sends_only_bind; [quiet|intros _].
  destruct (negb _); [quiet|].
  apply sends_only_bind; [quiet|intros _].
  apply sends_only_bind; [apply convertEmailToPdf_sends_nothing|intros _].
  apply sends_only_bind; [quiet|intros _].
  apply sends_only_try_catch; [|intros; apply catchBlock_quiet].
  unfold sendBlock. rewrite Hbot. cbn [negb]. quiet.
Qed.

(** X4.  When the messaging client is missing, the handler sends nothing; but
    it notices only after the work is done: for an accepted sender, when
    every call succeeds, the mail is rendered, the browser closed and the
    PDF written before the error is logged. *)
Theorem missing_bot_is_noticed_late (e : env) (email : mail)
    (rs : list (option js_error)) :
  bot_initialised e = false →
  deliveries (trace (onMail e email (start rs)).2) = []
  ∧ (isWhitelisted (whitelist e) (extractSenderEmail (from email)) = true →
     ∃ pre,
       trace (onMail e email (start [])).2
       = pre ++ [Called Close None;
                 Called (WriteFile (source (expected_request e email))) None;
                 ConsoleError "Error sending document to Telegram:"
                   not_initialised]).
Proof.
  intros Hbot. split; [by apply uninitialised_bot_sends_nothing|].
  intros Hw. unfold onMail, sendBlock, catchBlock. rewrite Hw, Hbot.
  unfold convertEmailToPdf, primaryPath, fallbackPath, try_finally, try_catch,
    mbind, M_bind, bind, await, emit, ret, throw, start.
  cbn -[processEmailContent createSimpleTextEmail].
  eexists [_; _; _; _; _; _; _; _]. reflexivity.
Qed.

Lemma missing_bot_is_noticed_late_witness :
  deliveries (trace (onMail env_no_bot mail_hi (start [])).2) = []
  ∧ ∃ pre,
      trace (onMail env_no_bot mail_hi (start [])).2
      = pre ++ [Called Close None;
                Called (WriteFile (source (expected_request env_no_bot mail_hi)))
                  None;
                ConsoleError "Error sending document to Telegram:"
                  not_initialised].
Proof.
  destruct (missing_bot_is_noticed_late env_no_bot mail_hi [] eq_refl)
    as [H1 H2].
  split; [exact H1|]. apply H2. by vm_compute.
Defined.

(** ** Forwarded-message comment: what the passes leave *)

Lemma scan_markers_normalised (ms : list str) (t c : str) :
  scan_markers ms t = Some c → ∃ textBefore, c = normalise textBefore.
Proof.
  induction ms as [|m ms IH]; simpl; [done|].
  destruct (includes m t); [|done].
  case_bool_decide; [|done].
  destruct (truthy _); [|done]. intros [= <-]. by eexists.
Qed.

(** X7.  A comment that [extractForwardedText] returns never holds two
    white-space units in a row and does not start with one.  Line breaks
    are white space, so no empty line survives: the third and fourth
    passes undo the paragraph break that the first pass keeps. *)
Theorem forwarded_comment_is_single_spaced (email : mail) (c : str) :
  extractForwardedText email = Some c →
  single_spaced c = true ∧ starts_with_space c = false.
Proof.
  unfold extractForwardedText.
  destruct (text email) as [t|]; [|done].
  destruct (truthy t); [|done]. cbn [negb]. intros Hc. split.
  - apply scan_markers_normalised in Hc as [tb ->].
    apply normalise_single_spaced.
  - revert Hc. induction markers as [|m ms IH]; simpl; [done|].
    destruct (includes m t); [|done].
    case_bool_decide; [|done].
    destruct (trim_head (part 0 (split m t))) as [->|(x & r & -> & Hx)];
      [done|]. simpl.
    destruct (normalise_keeps_head x r Hx) as [r' ->]. by intros [= <-].
Qed.

Lemma forwarded_comment_is_single_spaced_witness :
  extractForwardedText (mail_with_text two_paragraphs)
    = Some (lit "Hi" ++ [NL] ++ lit "team")
  ∧ single_spaced (lit "Hi" ++ [NL] ++ lit "team") = true
  ∧ starts_with_space (lit "Hi" ++ [NL] ++ lit "team") = false.
Proof.
  split; [by vm_compute|].
  apply (forwarded_comment_is_single_spaced (mail_with_text two_paragraphs)).
  by vm_compute.
Defined.

(** ** Sender extraction: the display-name form *)





Lemma getTopicForEmail_no_domain_witness :
  getTopicForEmail settings_alice (lit "postmaster") = Some 7%Z.
Proof.
  rewrite (getTopicForEmail_no_domain settings_alice (lit "postmaster"));
    [done|done|by apply (bool_decide_unpack _)].
Defined.

(** ** Topic ids: what [parseInt] accepts *)






(** ** Retention sweep: failures *)

Lemma sweep_outcomes (now maxAgeHours : Z) (files : list entry) (n : nat) :
  sweep now (maxAgeHours * 60 * 60 * 1000) files n
  = ((n + length (filter (λ f, older now maxAgeHours f && deletable f = true)
                    files))%nat,
     omap (swept now maxAgeHours) files).
Proof.
  revert n. induction files as [|f files IH]; intros n.
  - simpl. by rewrite Nat.add_0_r.
  - change (omap (swept now maxAgeHours) (f :: files))
      with (match swept now maxAgeHours f with
            | Some r => r :: omap (swept now maxAgeHours) files
            | None => omap (swept now maxAgeHours) files
            end).
    cbn [sweep]. unfold swept, deleteFile.
    destruct (mtimeMs f) as [mtime|] eqn:Hm.
    + destruct (maxAgeHours * 60 * 60 * 1000 <? now - mtime)%Z eqn:Hold.
      * assert (older now maxAgeHours f = true) as Ho
          by (unfold older; by rewrite Hm).
        rewrite Ho. unfold removal_of.
        destruct (unlink_error f) as [[]|] eqn:Hu; rewrite IH.
        all: try (rewrite filter_cons_True
                    by (unfold deletable; by rewrite Ho, Hu)).
        all: try (rewrite filter_cons_False
                    by (unfold deletable; by rewrite Ho, Hu)).
        all: unfold deletable; rewrite Hu; cbn [length]; f_equal; lia.
      * assert (older now maxAgeHours f = false) as Ho
          by (unfold older; by rewrite Hm).
        rewrite Ho. rewrite filter_cons_False by (by rewrite Ho). apply IH.
    + assert (older now maxAgeHours f = false) as Ho
        by (unfold older; by rewrite Hm).
      rewrite IH. by rewrite filter_cons_False by (by rewrite Ho).
Qed.

(** X12.  Once the directory has been listed, [cleanupOldFiles] never rejects:
    a file that cannot be examined or removed is logged and skipped, the
    sweep goes on with the next one, and the count is the number of files
    older than the threshold whose removal succeeded or found the file
    gone.  A file that is not older is left alone. *)
Theorem sweep_survives_failures (files : list entry) (now maxAgeHours : Z) :
  cleanupOldFiles (Some (Return files)) now maxAgeHours
  = (Return (length (filter (λ f, older now maxAgeHours f && deletable f = true)
                        files)),
     omap (swept now maxAgeHours) files).
Proof. unfold cleanupOldFiles. by rewrite sweep_outcomes. Qed.

(** ** HTML escaping loses nothing *)

Lemma escape_unit_plain (c : N) :
  is_markup c = false → escape_unit c = [c] ∧ c ≠ 38.
Proof.
  intros H. unfold escape_unit. rewrite H. split; [done|].
  intros Hc. by rewrite Hc in H.
Qed.

Lemma escape_unit_markup (c : N) :
  is_markup c = true →
  (c = 38 ∧ escape_unit c = lit "&amp;")
  ∨ (c = 60 ∧ escape_unit c = lit "&lt;")
  ∨ (c = 62 ∧ escape_unit c = lit "&gt;")
  ∨ (c = QUOT ∧ escape_unit c = lit "&quot;")
  ∨ (c = 39 ∧ escape_unit c = lit "&#039;").
Proof.
  intros H. unfold escape_unit. rewrite H. unfold is_markup, entity, QUOT in *.
  destruct (N.eqb_spec c 38) as [E|?]; [subst c; by left|].
  destruct (N.eqb_spec c 60) as [E|?]; [subst c; by right; left|].
  destruct (N.eqb_spec c 62) as [E|?]; [subst c; by right; right; left|].
  destruct (N.eqb_spec c 34) as [E|?]; [subst c; by right; right; right; left|].
  destruct (N.eqb_spec c 39) as [E|?]; [subst c; by right; right; right; right|].
  done.
Qed.

Lemma escape_units_injective (a b : str) :
  flat_map escape_unit a = flat_map escape_unit b → a = b.
Proof.
  revert b. induction a as [|x a IH]; intros [|y b]; cbn [flat_map].
  - done.
  - intros H. symmetry in H. apply app_eq_nil in H as [H _].
    destruct (is_markup y) eqn:Hy.
    + by destruct (escape_unit_markup y Hy) as [[_ E]|[[_ E]|[[_ E]|[[_ E]|[_ E]]]]];
        rewrite E in H.
    + destruct (escape_unit_plain y Hy) as [E _]. by rewrite E in H.
  - intros H. apply app_eq_nil in H as [H _].
    destruct (is_markup x) eqn:Hx.
    + by destruct (escape_unit_markup x Hx) as [[_ E]|[[_ E]|[[_ E]|[[_ E]|[_ E]]]]];
        rewrite E in H.
    + destruct (escape_unit_plain x Hx) as [E _]. by rewrite E in H.
  - destruct (is_markup x) eqn:Hx, (is_markup y) eqn:Hy.
    + destruct (escape_unit_markup x Hx) as [[-> E]|[[-> E]|[[-> E]|[[-> E]|[-> E]]]]];
        destruct (escape_unit_markup y Hy) as [[-> F]|[[-> F]|[[-> F]|[[-> F]|[-> F]]]]].
      all: rewrite ?E, ?F; cbn; intros H; try discriminate H;
        f_equal; apply IH; by simplify_eq.
    + destruct (escape_unit_plain y Hy) as [-> Hne].
      destruct (escape_unit_markup x Hx) as [[-> E]|[[-> E]|[[-> E]|[[-> E]|[-> E]]]]];
        rewrite E; cbn; intros H; by simplify_eq.
    + destruct (escape_unit_plain x Hx) as [-> Hne].
      destruct (escape_unit_markup y Hy) as [[-> E]|[[-> E]|[[-> E]|[[-> E]|[-> E]]]]];
        rewrite E; cbn; intros H; by simplify_eq.
    + destruct (escape_unit_plain x Hx) as [-> _].
      destruct (escape_unit_plain y Hy) as [-> _].
      cbn. intros [= -> H]. f_equal. by apply IH.
Qed.

(** X13.  [escapeHtml] works unit by unit, so the escaped form of a
    concatenation is the concatenation of the escaped forms, and it is
    injective: two different texts never have the same escaped form. *)
Theorem escapeHtml_loses_nothing (a b : str) :
  escapeHtml (a ++ b) = escapeHtml a ++ escapeHtml b
  ∧ (escapeHtml a = escapeHtml b → a = b).
Proof.
  rewrite !escapeHtml_units. split; [apply flat_map_app|].
  apply escape_units_injective.
Qed.

(** ** What the rich page shows as it is *)

Lemma occurs_refl (s : str) : occurs s s.
Proof. exists [], []. by rewrite app_nil_r. Qed.

Lemma occurs_trans (a b c : str) : occurs a b → occurs b c → occurs a c.
Proof.
  intros (p1 & q1 & ->) (p2 & q2 & ->). exists (p2 ++ p1), (q1 ++ q2).
  by rewrite <- !app_assoc.
Qed.

Lemma occurs_app_l (a b c : str) : occurs a b → occurs a (b ++ c).
Proof.
  intros (p & q & ->). exists p, (q ++ c). by rewrite <- !app_assoc.
Qed.

Lemma occurs_app_r (a b c : str) : occurs a c → occurs a (b ++ c).
Proof.
  intros (p & q & ->). exists (b ++ p), q. by rewrite <- !app_assoc.
Qed.

Lemma occurs_concat (x : str) (l : list str) : x ∈ l → occurs x (concat l).
Proof.
  induction l as [|y l IH]; intros Hx; [by apply elem_of_nil in Hx|].
  apply elem_of_cons in Hx as [->|Hx]; simpl.
  - apply occurs_app_l, occurs_refl.
  - by apply occurs_app_r, IH.
Qed.

Lemma occurs_piece (rt : runtime) (email : mail) (i : nat) (h : hole) :
  emailTemplate !! i = Some (Fill h) →
  occurs (fill rt email h) (createEmailHtml rt email).
Proof.
  intros Hi. unfold createEmailHtml. apply occurs_concat.
  apply list_elem_of_fmap. exists (Fill h). split; [done|].
  by apply list_elem_of_lookup_2 in Hi.
Qed.

(** X14.  Unlike the header fields, the HTML body of a mail and the file names
    of its attachments are written into the page of [createEmailHtml] as
    they are, markup included. *)
Theorem body_and_names_are_not_escaped (rt : runtime) (email : mail) :
  (∀ h, html email = Some h → h ≠ [] → occurs h (createEmailHtml rt email))
  ∧ (∀ att, att ∈ attachments email → fileName att ≠ [] →
       occurs (fileName att) (createEmailHtml rt email)).
Proof.
  split.
  - intros h Hh Hne.
    apply (occurs_trans _ (fill rt email Body)); [|by apply (occurs_piece _ _ 13)].
    cbn [fill]. rewrite Hh. destruct h; [done|]. apply occurs_refl.
  - intros att Hatt Hne.
    apply (occurs_trans _ (fill rt email Attachments));
      [|by apply (occurs_piece _ _ 15)].
    cbn [fill]. destruct (attachments email) as [|a0 atts] eqn:Ha;
      [by apply elem_of_nil in Hatt|]. rewrite <- Ha in *. clear Ha.
    do 3 apply occurs_app_r. apply occurs_app_l.
    unfold attachmentsList.
    eapply occurs_trans; [|apply occurs_concat, list_elem_of_fmap;
                            exists att; split; [reflexivity|done]].
    cbn beta. destruct (fileName att) as [|c n]; [done|]. cbn [truthy].
    apply occurs_app_r, occurs_app_l, occurs_refl.
Qed.

(** ** Mailbox watcher: invariants *)

Lemma attempts_step (s : Watcher.state) (ev : Watcher.event) :
  (Watcher.reconnectAttempts s ≤ Watcher.maxReconnectAttempts)%nat →
  (Watcher.reconnectAttempts (Watcher.step s ev)
   ≤ Watcher.maxReconnectAttempts)%nat.
Proof.
  intros Hle. unfold Watcher.step.
  destruct (Watcher.uncaught s); [done|].
  destruct ev as [c|c|c|].
  - destruct (Watcher.connections s !! c) as [k|]; [|done].
    destruct (Watcher.on_ready k); [|done]. cbn. lia.
  - destruct (Watcher.connections s !! c) as [k|]; [|done].
    destruct (Watcher.on_error k); [|done].
    cbn -[Watcher.maxReconnectAttempts].
    case_bool_decide; cbn -[Watcher.maxReconnectAttempts]; [lia|done].
  - destruct (Watcher.connections s !! c) as [k|]; [|done].
    by destruct (Watcher.on_end k).
  - by destruct (Watcher.timers s).
Qed.

Lemma attempts_run (evs : list Watcher.event) (s : Watcher.state) :
  (Watcher.reconnectAttempts s ≤ Watcher.maxReconnectAttempts)%nat →
  (Watcher.reconnectAttempts (Watcher.run s evs)
   ≤ Watcher.maxReconnectAttempts)%nat.
Proof.
  revert s. induction evs as [|ev evs IH]; intros s Hle; [done|].
  change (Watcher.run s (ev :: evs)) with (Watcher.run (Watcher.step s ev) evs).
  by apply IH, attempts_step.
Qed.

(** X15.  In every reachable state of the watcher the counter of reconnection
    attempts is at most 10 and at most one reconnection timer is pending;
    while a timer is pending, no connection has an error listener left,
    so nothing can schedule a second one. *)
Theorem watcher_never_storms (s : Watcher.state) :
  reachable s →
  (Watcher.reconnectAttempts s ≤ 10)%nat
  ∧ (length (Watcher.timers s) ≤ 1)%nat
  ∧ (length (Watcher.timers s) = 1%nat →
     ∀ c k, Watcher.connections s !! c = Some k → Watcher.on_error k = false).
Proof.
  intros Hreach. pose proof (reachable_pending s Hreach) as Hp.
  destruct Hreach as [evs ->].
  split; [apply attempts_run; cbn; lia|].
  unfold pending in Hp. split; [lia|].
  intros Hone c k Hc. destruct (Watcher.on_error k) eqn:He; [|done].
  assert (armed (Watcher.connections (Watcher.run Watcher.setupEmailListener evs))
          = 0%nat) as Harmed by lia.
  unfold armed in Harmed. apply length_zero_iff_nil in Harmed.
  assert (k ∈ filter (λ k0, Watcher.on_error k0 = true)
                (Watcher.connections (Watcher.run Watcher.setupEmailListener evs)))
    as Hin.
  { apply list_elem_of_filter. split; [done|]. by eapply list_elem_of_lookup_2. }
  rewrite Harmed in Hin. by apply elem_of_nil in Hin.
Qed.

Lemma watcher_never_storms_witness :
  (Watcher.reconnectAttempts
     (Watcher.run Watcher.setupEmailListener ten_failures) ≤ 10)%nat
  ∧ (length (Watcher.timers
               (Watcher.run Watcher.setupEmailListener ten_failures)) ≤ 1)%nat.
Proof.
  destruct (watcher_never_storms
              (Watcher.run Watcher.setupEmailListener ten_failures))
    as (H1 & H2 & _); [by exists ten_failures|].
  by split.
Defined.

(** ** Start-up: the port that is listened on *)

Lemma probePorts_listening (free : N → bool) (attempts : nat) (port p : N) :
  probePorts free port attempts = Listening p
  ↔ port ≤ p < port + N.of_nat attempts ∧ p ≤ 65535 ∧ free p = true
    ∧ ∀ q, port ≤ q < p → free q = false.
Proof.
  revert port. induction attempts as [|n IH]; intros port.
  - simpl. split; [done|]. lia.
  - cbn [probePorts]. destruct (N.ltb_spec 65535 port) as [Hbig|Hsmall].
    { split; [done|]. lia. }
    destruct (free port) eqn:Hfree.
    + split.
      * intros [= <-]. split; [lia|]. split; [done|]. split; [done|]. lia.
      * intros (Hr & _ & Hp & Hmin). f_equal.
        destruct (N.eq_dec port p) as [|Hne]; [done|].
        rewrite Hmin in Hfree by lia. done.
    + rewrite IH. split.
      * intros (Hr & Hle & Hp & Hmin). split; [lia|]. split; [done|].
        split; [done|]. intros q Hq.
        destruct (N.eq_dec q port) as [->|Hne]; [done|]. apply Hmin. lia.
      * intros (Hr & Hle & Hp & Hmin).
        assert (p ≠ port) by congruence.
        split; [lia|]. split; [done|]. split; [done|].
        intros q Hq. apply Hmin. lia.
Qed.

Lemma probePorts_exit (free : N → bool) (attempts : nat) (port : N) :
  probePorts free port attempts = Exit
  ↔ ∀ q, port ≤ q < port + N.of_nat attempts → q ≤ 65535 → free q = false.
Proof.
  revert port. induction attempts as [|n IH]; intros port.
  - simpl. split; [|done]. intros _ q Hq. lia.
  - cbn [probePorts]. destruct (N.ltb_spec 65535 port) as [Hbig|Hsmall].
    { split; [|done]. intros _ q Hq Hle. lia. }
    destruct (free port) eqn:Hfree.
    + split; [done|]. intros Hall. rewrite Hall in Hfree by lia. done.
    + rewrite IH. split.
      * intros Hall q Hq Hle.
        destruct (N.eq_dec q port) as [->|Hne]; [done|]. apply Hall; lia.
      * intros Hall q Hq Hle. apply Hall; lia.
Qed.

(** X16.  [startServer] listens on the first free port among the ten ports
    from [SERVER_PORT] on, as long as that port is at most 65535, and
    exits exactly when none of these ports is free. *)
Theorem startServer_first_free_port (free : N → bool) (SERVER_PORT p : N) :
  (startServer free SERVER_PORT = Listening p
   ↔ SERVER_PORT ≤ p < SERVER_PORT + 10 ∧ p ≤ 65535 ∧ free p = true
     ∧ ∀ q, SERVER_PORT ≤ q < p → free q = false)
  ∧ (startServer free SERVER_PORT = Exit
     ↔ ∀ q, SERVER_PORT ≤ q < SERVER_PORT + 10 → q ≤ 65535 → free q = false).
Proof.
  split; [apply probePorts_listening|apply probePorts_exit].
Qed.

(** ** Address validation *)

(** A greedy repetition followed by [k] matches exactly when some run of
    at least [least] units of the class is followed by a match of [k]. *)
Lemma greedy_is_Some (p : N → bool) (k : str → option str) (least : nat)
    (s : str) :
  is_Some (greedy p k least s)
  ↔ ∃ a rest, s = a ++ rest ∧ Forall (λ c, p c = true) a
              ∧ (least ≤ length a)%nat ∧ is_Some (k rest).
Proof.
  split.
  - revert least. induction s as [|c s IH]; intros least.
    + simpl. destruct least; simpl; [|by intros [? [=]]].
      intros Hk. exists [], []. by repeat split.
    + cbn [greedy].
      assert (is_Some (stop_here k least (c :: s)) →
              ∃ a rest, c :: s = a ++ rest ∧ Forall (λ c, p c = true) a
                        ∧ (least ≤ length a)%nat ∧ is_Some (k rest)) as Hstop.
      { destruct least; simpl; [|by intros [? [=]]].
        intros Hk. exists [], (c :: s). by repeat split. }
      destruct (p c) eqn:Hc; [|done].
      destruct (greedy p k (pred least) s) as [r|] eqn:Hg; [|done].
      intros _. destruct (IH (pred least)) as (a & rest & -> & Ha & Hlen & Hk).
      { rewrite Hg. by eexists. }
      exists (c :: a), rest. split; [done|]. split; [by constructor|].
      split; [simpl; lia|done].
  - intros (a & rest & -> & Ha & Hlen & Hk). revert least Hlen.
    induction Ha as [|c a Hc Ha IH]; intros least Hlen.
    + simpl in Hlen. assert (least = 0%nat) as -> by lia.
      destruct rest as [|c rest]; simpl; [done|].
      destruct (p c); [|done].
      by destruct (greedy p k 0 rest).
    + simpl. rewrite Hc.
      destruct (IH (pred least)) as [r ->]; [simpl in Hlen; lia|]. by eexists.
Qed.

Lemma then_unit_is_Some (u : N) (k : str → option str) (s : str) :
  is_Some (then_unit u k s) ↔ ∃ s', s = u :: s' ∧ is_Some (k s').
Proof.
  unfold then_unit. destruct s as [|c s].
  - split; [by intros [? [=]]|by intros (? & [=] & _)].
  - destruct (N.eqb_spec c u) as [->|Hne].
    + split; [by exists s|by intros (? & [= <-] & ?)].
    + split; [by intros [? [=]]|]. by intros (? & [= ? <-] & _).
Qed.

Lemma at_end_is_Some (s : str) : is_Some (at_end s) ↔ s = [].
Proof.
  destruct s; simpl; [by split; [|eexists]|].
  split; [by intros [? [=]]|done].
Qed.

Lemma isValidEmail_address_shape (email : str) :
  isValidEmail email = true ↔ address_shape email.
Proof.
  unfold isValidEmail, address_shape. rewrite bool_decide_eq_true.
  rewrite greedy_is_Some. split.
  - intros (l & r1 & -> & Hl & Hll & H1).
    apply then_unit_is_Some in H1 as (r2 & -> & H2).
    apply greedy_is_Some in H2 as (d & r3 & -> & Hd & Hdl & H3).
    apply then_unit_is_Some in H3 as (r4 & -> & H4).
    apply greedy_is_Some in H4 as (t & r5 & -> & Ht & Htl & H5).
    apply at_end_is_Some in H5 as ->. rewrite app_nil_r.
    exists l, d, t. split; [done|].
    split; [by destruct l; [simpl in Hll; lia|]|].
    split; [by destruct d; [simpl in Hdl; lia|]|].
    split; [by destruct t; [simpl in Htl; lia|]|].
    by rewrite !Forall_app.
  - intros (l & d & t & -> & Hl & Hd & Ht & Hall).
    rewrite !Forall_app in Hall. destruct Hall as (Hal & Had & Hat).
    exists l, ([AT] ++ d ++ [46] ++ t). split; [done|]. split; [done|].
    split; [destruct l; [done|simpl; lia]|].
    apply then_unit_is_Some. eexists. split; [done|].
    apply greedy_is_Some. exists d, ([46] ++ t). split; [done|]. split; [done|].
    split; [destruct d; [done|simpl; lia]|].
    apply then_unit_is_Some. eexists. split; [done|].
    apply greedy_is_Some. exists t, []. split; [by rewrite app_nil_r|].
    split; [done|]. split; [destruct t; [done|simpl; lia]|]. by eexists.
Qed.

Lemma includes_unit (c : N) (s : str) : includes [c] s = true ↔ c ∈ s.
Proof.
  rewrite includes_occurs. split.
  - intros (pre & post & ->). rewrite elem_of_app. right. by left.
  - intros (pre & post & ->)%list_elem_of_split. by exists pre, post.
Qed.

Lemma endsWith_unit (c : N) (s : str) : endsWith [c] s = true ↔ last s = Some c.
Proof.
  unfold endsWith. cbn [rev app].
  destruct s as [|x s _] using rev_ind; [done|].
  rewrite rev_app_distr, last_snoc. cbn.
  destruct (N.eqb_spec c x) as [->|Hne]; [done|].
  split; [done|]. intros [= ->]. done.
Qed.

Lemma address_shape_one_at (e : str) :
  address_shape e → length (split [AT] e) = 2%nat ∧ e ≠ [].
Proof.
  intros (l & d & t & -> & Hl & _ & _ & Hall).
  rewrite !Forall_app in Hall. destruct Hall as (Hal & Had & Hat).
  assert (∀ s, Forall (λ c, address_unit c = true) s → AT ∉ s) as Hno.
  { intros s Hs Hin. rewrite Forall_forall in Hs. specialize (Hs _ Hin).
    unfold address_unit in Hs. rewrite N.eqb_refl, orb_true_r in Hs. done. }
  split; [|by destruct l].
  apply split_unit_two. exists l, (d ++ [46] ++ t). split; [done|].
  split; [by apply Hno|]. rewrite !not_elem_of_app. split; [by apply Hno|].
  split; [|by apply Hno]. by intros [=]%list_elem_of_singleton.
Qed.

Lemma address_shape_no_space (e : str) :
  address_shape e → Forall (λ c, is_space c = false) e.
Proof.
  intros (l & d & t & -> & _ & _ & _ & Hall).
  rewrite !Forall_app in Hall. destruct Hall as (Hal & Had & Hat).
  assert (∀ s, Forall (λ c, address_unit c = true) s →
               Forall (λ c, is_space c = false) s) as Hno.
  { intros s Hs. eapply Forall_impl; [exact Hs|]. intros c Hc. cbn beta in Hc.
    unfold address_unit in Hc. apply negb_true_iff, orb_false_iff in Hc.
    by destruct Hc. }
  rewrite !Forall_app. split; [by apply Hno|]. split; [by repeat constructor|].
  split; [by apply Hno|]. split; [by repeat constructor|]. by apply Hno.
Qed.

(** X17.  [isValidEmail] accepts exactly the texts [local@domain.tail] whose
    three parts are non-empty and hold neither white space nor ['@']; such
    a text has exactly one ['@'] and no white space at all. *)
Theorem isValidEmail_shape (email : str) :
  (isValidEmail email = true ↔ address_shape email)
  ∧ (isValidEmail email = true →
     length (split [AT] email) = 2%nat
     ∧ Forall (λ c, is_space c = false) email).
Proof.
  split; [apply isValidEmail_address_shape|].
  intros H%isValidEmail_address_shape. split.
  - by apply address_shape_one_at.
  - by apply address_shape_no_space.
Qed.

(** ** Allow-list store on disk *)

Ltac run_io :=
  unfold AllowList.addToWhitelist, AllowList.removeFromWhitelist,
    AllowList.isWhitelisted, AllowList.ensureWhitelistFile,
    AllowList.getWhitelist, AllowList.saveWhitelist,
    mbind, IO_bind, mret, IO_ret, io_ret, io_try, io_throw, console_log,
    ensureDataDir, write_whitelist, read_whitelist, entries, dir_ok in *;
  cbn [dataDir write_error whitelist_json topic_settings_json
       defaults_topicMappings console fst snd] in *.

Lemma addToWhitelist_run (email : str) (m : machine) :
  dir_ok m →
  ∃ r m', AllowList.addToWhitelist email m = (Return r, m')
    ∧ (AllowList.success r = true ↔ (email ∉ entries m) ∧ write_error m = None)
    ∧ entries m' = (if AllowList.success r then entries m ++ [email]
                    else entries m)
    ∧ write_error m' = write_error m
    ∧ dataDir m' = true.
Proof.
  intros Hdir. destruct m as [dir [err|] [|e|l] tj dm con]; run_io.
  all: destruct dir; [|destruct Hdir as [[=]|[=]]]; cbn.
  all: try case_bool_decide; cbn.
  all: eexists _, _; (split; [reflexivity|]); cbn.
  all: split; [|done].
  all: try (split; [done|by intros [_ [=]]]).
  all: try (split; [intros _; split; [apply not_elem_of_nil|done]|done]).
  all: try (by apply elem_of_nil in H).
  all: split; [done|by intros [? _]].
Qed.

Lemma removeFromWhitelist_run (email : str) (m : machine) :
  dir_ok m →
  ∃ r m', AllowList.removeFromWhitelist email m = (Return r, m')
    ∧ (AllowList.success r = true ↔ email ∈ entries m ∧ write_error m = None)
    ∧ entries m' = (if AllowList.success r
                    then filter (λ e, e ≠ email) (entries m)
                    else entries m)
    ∧ write_error m' = write_error m
    ∧ dataDir m' = true.
Proof.
  intros Hdir. destruct m as [dir [err|] [|e|l] tj dm con]; run_io.
  all: destruct dir; [|destruct Hdir as [[=]|[=]]]; cbn.
  all: try case_bool_decide; cbn.
  all: eexists _, _; (split; [reflexivity|]); cbn.
  all: split; [|done].
  all: try (by apply elem_of_nil in H).
  all: try (split; [done|by intros [_ [=]]]).
  all: try (split; [done|by intros [? _]]).
Qed.

Lemma isWhitelisted_entries (email : str) (m : machine) :
  dir_ok m →
  (AllowList.isWhitelisted email m).1 = Return (isWhitelisted (entries m) email).
Proof.
  intros Hdir. destruct m as [dir [err|] [|e|l] tj dm con]; run_io.
  all: destruct dir; [|destruct Hdir as [[=]|[=]]]; by cbn.
Qed.

(** X18.  When the data directory exists or can be made, [addToWhitelist]
    returns; it reports success exactly when the address was not in the
    list and the file could be written, and then the address is appended
    to the list; otherwise the list is as before.  A file that is missing
    or cannot be parsed counts as the empty list, so a successful call
    replaces it by the list of the one new address. *)
Theorem addToWhitelist_spec (email : str) (m : machine) :
  dir_ok m →
  ∃ r m', AllowList.addToWhitelist email m = (Return r, m')
    ∧ (AllowList.success r = true ↔ (email ∉ entries m) ∧ write_error m = None)
    ∧ entries m' = (if AllowList.success r then entries m ++ [email]
                    else entries m).
Proof.
  intros Hdir.
  destruct (addToWhitelist_run email m Hdir) as (r & m' & Hrun & Hs & Hent & _).
  by exists r, m'.
Qed.

Lemma addToWhitelist_spec_witness :
  ∃ r m', AllowList.addToWhitelist (lit "a@b.c") fresh_machine = (Return r, m')
    ∧ AllowList.success r = true ∧ entries m' = [lit "a@b.c"].
Proof.
  destruct (addToWhitelist_spec (lit "a@b.c") fresh_machine) as (r & m' & Hrun & Hs & Hent);
    [by left|].
  exists r, m'. split; [done|].
  assert (AllowList.success r = true) as Hok
    by (apply Hs; split; [apply not_elem_of_nil|done]).
  split; [done|]. by rewrite Hent, Hok.
Defined.

(** X19.  When the data directory exists or can be made, [removeFromWhitelist]
    returns; it reports success exactly when the address was in the list
    and the file could be written, and then every occurrence of the
    address is gone and the other entries keep their order; otherwise the
    list is as before. *)
Theorem removeFromWhitelist_spec (email : str) (m : machine) :
  dir_ok m →
  ∃ r m', AllowList.removeFromWhitelist email m = (Return r, m')
    ∧ (AllowList.success r = true ↔ email ∈ entries m ∧ write_error m = None)
    ∧ entries m' = (if AllowList.success r
                    then filter (λ e, e ≠ email) (entries m)
                    else entries m)
    ∧ (AllowList.success r = true → email ∉ entries m').
Proof.
  intros Hdir.
  destruct (removeFromWhitelist_run email m Hdir)
    as (r & m' & Hrun & Hs & Hent & _).
  exists r, m'. repeat (split; [done|]).
  intros Hok. rewrite Hent, Hok. rewrite list_elem_of_filter. by intros [? _].
Qed.

Lemma removeFromWhitelist_spec_witness :
  ∃ r m',
    AllowList.removeFromWhitelist (lit "a@b.c")
      (machine_with [lit "a@b.c"; lit "*@example.com"]) = (Return r, m')
    ∧ AllowList.success r = true ∧ entries m' = [lit "*@example.com"].
Proof.
  destruct (removeFromWhitelist_spec (lit "a@b.c")
              (machine_with [lit "a@b.c"; lit "*@example.com"]))
    as (r & m' & Hrun & Hs & Hent & _); [by left|].
  exists r, m'. split; [done|].
  assert (AllowList.success r = true) as Hok
    by (apply Hs; split; [by left|done]).
  split; [done|]. by rewrite Hent, Hok.
Defined.

(** X20.  The allow-list fails open: every sender is accepted when the file is
    missing, cannot be parsed or holds the empty list, and also after the
    only entry of the list has been removed. *)
Theorem empty_or_unreadable_list_accepts_everyone (m : machine) (sender : str) :
  dir_ok m →
  ((∀ l, whitelist_json m = Holds l → l = []) →
     (AllowList.isWhitelisted sender m).1 = Return true)
  ∧ (∀ e r m', entries m = [e] →
       AllowList.removeFromWhitelist e m = (Return r, m') →
       AllowList.success r = true →
       (AllowList.isWhitelisted sender m').1 = Return true).
Proof.
  intros Hdir. split.
  - intros Hempty. rewrite isWhitelisted_entries by done.
    assert (entries m = []) as ->; [|done].
    unfold entries. destruct (whitelist_json m); [done..|]. by apply Hempty.
  - intros e r m' He Hrun Hok.
    destruct (removeFromWhitelist_run e m Hdir) as (r0 & m0 & Hrun0 & Hs & Hent & Hw & _).
    rewrite Hrun in Hrun0. injection Hrun0 as <- <-.
    rewrite Hok in Hent. apply Hs in Hok as [_ Hwr].
    rewrite isWhitelisted_entries by (right; congruence).
    rewrite Hent, He. cbn. by rewrite decide_False by (by intros []).
Qed.

Lemma empty_or_unreadable_list_accepts_everyone_witness :
  (AllowList.isWhitelisted (lit "anyone@example.org") garbled_machine).1
  = Return true.
Proof.
  destruct (empty_or_unreadable_list_accepts_everyone garbled_machine
              (lit "anyone@example.org")) as [H _]; [by left|].
  apply H. intros l [=].
Defined.

(** X21.  A list without duplicates stays without duplicates under
    [addToWhitelist] and [removeFromWhitelist]. *)
Theorem no_duplicates_are_stored (email : str) (m : machine) :
  dir_ok m → NoDup (entries m) →
  NoDup (entries (AllowList.addToWhitelist email m).2)
  ∧ NoDup (entries (AllowList.removeFromWhitelist email m).2).
Proof.
  intros Hdir Hnd. split.
  - destruct (addToWhitelist_run email m Hdir) as (r & m' & Hrun & Hs & Hent & _ & _).
    rewrite Hrun. cbn [snd]. rewrite Hent. destruct (AllowList.success r); [|done].
    apply NoDup_app. split; [done|]. split; [|apply NoDup_singleton].
    intros x Hx ->%list_elem_of_singleton. by apply (proj1 Hs).
  - destruct (removeFromWhitelist_run email m Hdir) as (r & m' & Hrun & Hs & Hent & _ & _).
    rewrite Hrun. cbn [snd]. rewrite Hent. destruct (AllowList.success r); [|done].
    by apply NoDup_filter.
Qed.

Lemma no_duplicates_are_stored_witness :
  NoDup (entries (AllowList.addToWhitelist (lit "a@b.c")
                    (machine_with [lit "a@b.c"])).2)
  ∧ NoDup (entries (AllowList.removeFromWhitelist (lit "a@b.c")
                      (machine_with [lit "a@b.c"])).2).
Proof.
  apply (no_duplicates_are_stored (lit "a@b.c") (machine_with [lit "a@b.c"]));
    [by left|apply NoDup_singleton].
Defined.

(** ** Routing store on disk *)

Ltac run_topics :=
  unfold TopicManager.setTopicForEmail, TopicManager.removeTopicForEmail,
    TopicManager.setDefaultTopic, TopicManager.getDefaultTopic,
    TopicManager.getTopicForEmail, TopicManager.getTopicMappings,
    TopicManager.getTopicSettings, TopicManager.saveTopicSettings,
    TopicManager.mutate_mappings, TopicManager.spread_defaults,
    TopicManager.default_settings, TopicManager.stringify,
    mbind, IO_bind, mret, IO_ret, io_ret, io_try, io_throw, console_log,
    ensureDataDir, write_topic_settings, read_topic_settings, current,
    file_in_order, dir_ok in *;
  cbn [dataDir write_error whitelist_json topic_settings_json
       defaults_topicMappings console fst snd TopicManager.value
       TopicManager.shared defaultTopic topicMappings
       json_defaultTopic json_topicMappings] in *.

Ltac absurd_file :=
  try match goal with
      | H : ∃ _, NoFile = Holds _ |- _ => by destruct H as [? [=]]
      | H : ∃ _, Garbage _ = Holds _ |- _ => by destruct H as [? [=]]
      | H : ¬ (∃ _, Holds _ = Holds _) |- _ => by destruct H; eexists
      end.

Lemma getTopicSettings_current (m : machine) :
  dir_ok m →
  ∃ l m', TopicManager.getTopicSettings m = (Return l, m')
          ∧ TopicManager.value l = current m
          ∧ current m' = current m
          ∧ (TopicManager.shared l = false ↔ file_in_order m)
          ∧ write_error m' = write_error m
          ∧ defaults_topicMappings m' = defaults_topicMappings m
          ∧ (file_in_order m → topic_settings_json m' = topic_settings_json m)
          ∧ dir_ok m'.
Proof.
  intros Hdir.
  destruct m as [[] [err|] wl [|e|j] dm con]; run_topics; cbn;
    try (by destruct Hdir as [[=]|[=]]);
    eexists _, _; (split; [reflexivity|]); cbn;
    repeat split; try done; try (by intros [? [=]]); try (by eexists);
    try (by left); try (by right).
Qed.

Lemma setTopicForEmail_run (m : machine) (k topicId : str) (n : Z) :
  dir_ok m → k ≠ [] → parseInt topicId = Some n → (0 < n)%Z →
  let new := TopicManager.assign (toLowerCase k) n (topicMappings (current m)) in
  ∃ r m', TopicManager.setTopicForEmail k topicId m = (Return r, m')
    ∧ (TopicManager.success r = true ↔ write_error m = None)
    ∧ (TopicManager.success r = false →
       TopicManager.message r = lit "Failed to save settings")
    ∧ (file_in_order m →
       defaults_topicMappings m' = defaults_topicMappings m
       ∧ file_in_order m'
       ∧ current m' = (if TopicManager.success r
                       then {| defaultTopic := defaultTopic (current m);
                               topicMappings := new |}
                       else current m))
    ∧ (¬ file_in_order m →
       defaults_topicMappings m' = new
       ∧ current m' = {| defaultTopic := None; topicMappings := new |}
       ∧ (write_error m ≠ None → topic_settings_json m' = topic_settings_json m))
    ∧ write_error m' = write_error m
    ∧ dir_ok m'.
Proof.
  intros Hdir Hk Hparse Hpos new. subst new.
  unfold TopicManager.setTopicForEmail. rewrite Hparse.
  apply Z.ltb_lt in Hpos. rewrite Hpos.
  destruct k as [|c k]; [done|]. cbn [truthy negb].
  generalize (toLowerCase (c :: k)). intros key.
  destruct m as [[] [err|] wl [|e|j] dm con]; run_topics; cbn;
    try (by destruct Hdir as [[=]|[=]]);
    eexists _, _; (split; [reflexivity|]); cbn.
  all: repeat split; try done; try (by intros [? [=]]); try (by eexists);
    try (by left); try (by right); try (by intros []; eexists).
  all: try match goal with
           | H : ∃ _, NoFile = Holds _ |- _ => by destruct H as [? [=]]
           | H : ∃ _, Garbage _ = Holds _ |- _ => by destruct H as [? [=]]
           | H : ¬ (∃ _, Holds _ = Holds _) |- _ => by destruct H; eexists
           end.
Qed.

Lemma removeTopicForEmail_run (m : machine) (k : str) :
  dir_ok m → k ≠ [] →
  let key := toLowerCase k in
  ∃ r m', TopicManager.removeTopicForEmail k m = (Return r, m')
    ∧ (TopicManager.success r = true
       ↔ is_Some (topicMappings (current m) !! key) ∧ write_error m = None)
    ∧ (file_in_order m →
       defaults_topicMappings m' = defaults_topicMappings m
       ∧ file_in_order m'
       ∧ topicMappings (current m')
         = (if TopicManager.success r
            then delete key (topicMappings (current m))
            else topicMappings (current m))
       ∧ defaultTopic (current m') = defaultTopic (current m))
    ∧ (¬ file_in_order m →
       defaults_topicMappings m' = delete key (topicMappings (current m))
       ∧ topicMappings (current m') = delete key (topicMappings (current m)))
    ∧ write_error m' = write_error m
    ∧ dir_ok m'.
Proof.
  intros Hdir Hk key. subst key.
  unfold TopicManager.removeTopicForEmail.
  destruct k as [|c k]; [done|]. cbn [truthy negb].
  generalize (toLowerCase (c :: k)). intros key.
  destruct m as [[] [err|] wl [|e|j] dm con]; run_topics; cbn;
    try (by destruct Hdir as [[=]|[=]]).
  all: match goal with
       | |- context [?mp !! ?kk] => destruct (mp !! kk) as [t|] eqn:Hl
       end; cbn.
  all: eexists _, _; (split; [reflexivity|]); cbn; rewrite ?Hl.
  all: repeat split; try done; try (by intros [? [=]]); try (by eexists);
    try (by left); try (by right); try (by intros [[? [=]] _]);
    try (by intros [_ [=]]); absurd_file.
  all: try (by rewrite delete_id).
Qed.

Lemma setDefaultTopic_run (m : machine) (topicId : option str) (t : option Z) :
  dir_ok m →
  match topicId with
  | None => t = None
  | Some id => ∃ n, t = Some n ∧ parseInt id = Some n ∧ (0 < n)%Z
  end →
  ∃ r m', TopicManager.setDefaultTopic topicId m = (Return r, m')
    ∧ (TopicManager.success r = true ↔ write_error m = None)
    ∧ (TopicManager.success r = true →
       current m' = {| defaultTopic := t; topicMappings := topicMappings (current m) |}
       ∧ file_in_order m')
    ∧ (TopicManager.success r = false → current m' = current m)
    ∧ (file_in_order m → file_in_order m')
    ∧ defaults_topicMappings m' = defaults_topicMappings m
    ∧ write_error m' = write_error m
    ∧ dir_ok m'.
Proof.
  intros Hdir Ht. unfold TopicManager.setDefaultTopic.
  destruct topicId as [id|].
  - destruct Ht as (n & -> & -> & Hpos). apply Z.ltb_lt in Hpos. rewrite Hpos.
    destruct m as [[] [err|] wl [|e|j] dm con]; run_topics; cbn;
      try (by destruct Hdir as [[=]|[=]]);
      eexists _, _; (split; [reflexivity|]); cbn;
      repeat split; try done; try (by eexists); try (by left); try (by right);
      absurd_file.
  - subst t.
    destruct m as [[] [err|] wl [|e|j] dm con]; run_topics; cbn;
      try (by destruct Hdir as [[=]|[=]]);
      eexists _, _; (split; [reflexivity|]); cbn;
      repeat split; try done; try (by eexists); try (by left); try (by right);
      absurd_file.
Qed.


Lemma getDefaultTopic_current (m : machine) :
  dir_ok m →
  (TopicManager.getDefaultTopic m).1 = Return (defaultTopic (current m)).
Proof.
  intros Hdir.
  destruct (getTopicSettings_current m Hdir) as (l & m' & Hrun & Hval & _).
  unfold TopicManager.getDefaultTopic, mbind, IO_bind, io_ret.
  rewrite Hrun. cbn. by rewrite Hval.
Qed.

Lemma assign_insert (key : str) (n : Z) (mp : gmap str Z) :
  key ≠ lit "__proto__" → TopicManager.assign key n mp = <[key := n]> mp.
Proof.
  intros H. unfold TopicManager.assign. by rewrite bool_decide_eq_false_2.
Qed.

Ltac no_keys :=
  let k := fresh "k" in let v := fresh "v" in let Hv := fresh "Hv" in
  intros k [v Hv];
  change ((∅ : gmap str Z) !! k = Some v) in Hv;
  by rewrite lookup_empty in Hv.



(** X23.  With a routing file in order, [removeTopicForEmail] reports success
    exactly when the lower-cased pattern had a mapping and the file could
    be written; then that mapping, and nothing else, is gone; otherwise
    the settings are as before. *)
Theorem topic_mapping_removal (m : machine) (k : str) :
  dir_ok m → file_in_order m → keys_lower_case (current m) → k ≠ [] →
  ∃ r m', TopicManager.removeTopicForEmail k m = (Return r, m')
    ∧ (TopicManager.success r = true
       ↔ is_Some (topicMappings (current m) !! toLowerCase k)
         ∧ write_error m = None)
    ∧ topicMappings (current m')
      = (if TopicManager.success r
         then delete (toLowerCase k) (topicMappings (current m))
         else topicMappings (current m))
    ∧ defaultTopic (current m') = defaultTopic (current m).
Proof.
  intros Hdir Hfile _ Hk.
  destruct (removeTopicForEmail_run m k Hdir Hk)
    as (r & m' & Hrun & Hs & Hin & _ & _ & Hdir').
  destruct (Hin Hfile) as (_ & _ & Hmap & Hdef).
  by exists r, m'.
Qed.

Lemma topic_mapping_removal_witness :
  ∃ r m',
    TopicManager.removeTopicForEmail (lit "A@B.C") routed_machine = (Return r, m')
    ∧ TopicManager.success r = true
    ∧ topicMappings (current m') = ∅.
Proof.
  destruct (topic_mapping_removal routed_machine (lit "A@B.C"))
    as (r & m' & Hrun & Hs & Hmap & _).
  - by left.
  - by eexists.
  - intros k [v Hv].
    change (({[ lit "a@b.c" := 5%Z ]} : gmap str Z) !! k = Some v) in Hv.
    by apply lookup_singleton_Some in Hv as [<- _].
  - done.
  - exists r, m'. split; [done|].
    assert (TopicManager.success r = true) as Hok.
    { apply Hs. split; [|done]. by eexists. }
    split; [done|]. rewrite Hmap, Hok. apply delete_singleton_eq.
Defined.

(** X24.  On a writable store, [setDefaultTopic] with a valid id succeeds and
    [getDefaultTopic] then answers that id; [setDefaultTopic(null)] clears
    it again; neither call touches the mappings. *)
Theorem default_topic_round_trip (m : machine) (topicId : str) (n : Z) :
  dir_ok m → write_error m = None → reads_as topicId n →
  ∃ r m', TopicManager.setDefaultTopic (Some topicId) m = (Return r, m')
    ∧ TopicManager.success r = true
    ∧ (TopicManager.getDefaultTopic m').1 = Return (Some n)
    ∧ topicMappings (current m') = topicMappings (current m)
    ∧ ∃ r2 m2, TopicManager.setDefaultTopic None m' = (Return r2, m2)
        ∧ TopicManager.success r2 = true
        ∧ (TopicManager.getDefaultTopic m2).1 = Return None
        ∧ topicMappings (current m2) = topicMappings (current m).
Proof.
  intros Hdir Hw [Hparse [Hpos _]].
  destruct (setDefaultTopic_run m (Some topicId) (Some n) Hdir)
    as (r & m' & Hrun & Hs & Hok & _ & _ & _ & Hw' & Hdir'); [by exists n|].
  exists r, m'. split; [done|].
  assert (TopicManager.success r = true) as Hr by (by apply Hs).
  destruct (Hok Hr) as [Hc _].
  split; [done|]. rewrite getDefaultTopic_current, Hc by done.
  split; [done|]. split; [done|].
  destruct (setDefaultTopic_run m' None None Hdir' eq_refl)
    as (r2 & m2 & Hrun2 & Hs2 & Hok2 & _ & _ & _ & _ & Hdir2).
  exists r2, m2. split; [done|].
  assert (TopicManager.success r2 = true) as Hr2 by (apply Hs2; congruence).
  destruct (Hok2 Hr2) as [Hc2 _].
  split; [done|]. rewrite getDefaultTopic_current, Hc2 by done.
  split; [done|]. cbn. by rewrite Hc.
Qed.

Lemma default_topic_round_trip_witness :
  ∃ r m',
    TopicManager.setDefaultTopic (Some (lit "7")) fresh_machine = (Return r, m')
    ∧ TopicManager.success r = true
    ∧ (TopicManager.getDefaultTopic m').1 = Return (Some 7%Z).
Proof.
  destruct (default_topic_round_trip fresh_machine (lit "7") 7)
    as (r & m' & Hrun & Hok & Hget & _); [by left|done|by split|].
  by exists r, m'.
Defined.

Lemma assign_keys (key : str) (n : Z) (mp : gmap str Z) :
  toLowerCase key = key →
  (∀ k, is_Some (mp !! k) → toLowerCase k = k) →
  ∀ k, is_Some (TopicManager.assign key n mp !! k) → toLowerCase k = k.
Proof.
  intros Hkey Hmp k. unfold TopicManager.assign.
  destruct (_ && _); [apply Hmp|].
  destruct (decide (k = key)) as [->|Hne]; [done|].
  rewrite lookup_insert_ne by done. apply Hmp.
Qed.

Lemma delete_keys (key : str) (mp : gmap str Z) :
  (∀ k, is_Some (mp !! k) → toLowerCase k = k) →
  ∀ k, is_Some (delete key mp !! k) → toLowerCase k = k.
Proof.
  intros Hmp k [v Hv]. apply lookup_delete_Some in Hv as [_ Hv].
  apply Hmp. by eexists.
Qed.

Lemma file_in_order_dec (m : machine) : file_in_order m ∨ ¬ file_in_order m.
Proof.
  unfold file_in_order. destruct (topic_settings_json m).
  - right. by intros [? [=]].
  - right. by intros [? [=]].
  - left. by eexists.
Qed.


(** X25.  The three writing operations of the routing store keep every key
    lower-case, in the settings in force and in the defaults of the
    process. *)
Theorem keys_stay_lower_case (m : machine) (k topicId : str) (t : option str) :
  dir_ok m → lower_case_store m →
  lower_case_store (TopicManager.setTopicForEmail k topicId m).2
  ∧ lower_case_store (TopicManager.removeTopicForEmail k m).2
  ∧ lower_case_store (TopicManager.setDefaultTopic t m).2.
Proof.
  intros Hdir [Hd Hc]. unfold keys_lower_case in Hc. split; [|split].
  - destruct k as [|c k]; [done|].
    unfold TopicManager.setTopicForEmail. cbn [truthy negb].
    destruct (parseInt topicId) as [n|] eqn:Hparse; [|done].
    destruct (Z.ltb_spec 0 n) as [Hpos|]; [|done].
    destruct (setTopicForEmail_run m (c :: k) topicId n Hdir ltac:(done) Hparse Hpos)
      as (r & m' & Hrun & _ & _ & Hin & Hout & _).
    unfold TopicManager.setTopicForEmail in Hrun. cbn [truthy negb] in Hrun.
    rewrite Hparse in Hrun. apply Z.ltb_lt in Hpos. rewrite Hpos in Hrun.
    rewrite Hrun. cbn [snd].
    pose proof (assign_keys (toLowerCase (c :: k)) n (topicMappings (current m))
                  (toLowerCase_idemp _) Hc) as Hnew.
    destruct (file_in_order_dec m) as [Hf|Hf].
    + destruct (Hin Hf) as (Hd' & _ & Hc'). split.
      * by rewrite Hd'.
      * unfold keys_lower_case. rewrite Hc'.
        by destruct (TopicManager.success r).
    + destruct (Hout Hf) as (Hd' & Hc' & _). split.
      * by rewrite Hd'.
      * unfold keys_lower_case. by rewrite Hc'.
  - destruct k as [|c k]; [done|].
    destruct (removeTopicForEmail_run m (c :: k) Hdir ltac:(done))
      as (r & m' & Hrun & _ & Hin & Hout & _).
    rewrite Hrun. cbn [snd].
    pose proof (delete_keys (toLowerCase (c :: k)) (topicMappings (current m)) Hc)
      as Hnew.
    destruct (file_in_order_dec m) as [Hf|Hf].
    + destruct (Hin Hf) as (Hd' & _ & Hc' & _). split.
      * by rewrite Hd'.
      * unfold keys_lower_case. rewrite Hc'.
        by destruct (TopicManager.success r).
    + destruct (Hout Hf) as (Hd' & Hc'). split.
      * by rewrite Hd'.
      * unfold keys_lower_case. by rewrite Hc'.
  - assert (∀ t', match t with
                  | None => t' = None
                  | Some id => ∃ n, t' = Some n ∧ parseInt id = Some n ∧ (0 < n)%Z
                  end →
            lower_case_store (TopicManager.setDefaultTopic t m).2) as Hvalid.
    { intros t' Ht'.
      destruct (setDefaultTopic_run m t t' Hdir Ht')
        as (r & m' & Hrun & _ & Hok & Hfail & _ & Hd' & _).
      rewrite Hrun. cbn [snd]. split; [by rewrite Hd'|].
      unfold keys_lower_case.
      destruct (TopicManager.success r).
      - destruct Hok as [-> _]; done.
      - by rewrite Hfail. }
    destruct t as [id|]; [|by apply (Hvalid None)].
    destruct (parseInt id) as [n|] eqn:Hparse.
    + destruct (Z.ltb_spec 0 n) as [Hpos|Hneg].
      * apply (Hvalid (Some n)). by exists n.
      * unfold TopicManager.setDefaultTopic. rewrite Hparse.
        by rewrite (proj2 (Z.ltb_ge 0 n)).
    + unfold TopicManager.setDefaultTopic. by rewrite Hparse.
Qed.

Lemma keys_stay_lower_case_witness :
  lower_case_store
    (TopicManager.setTopicForEmail (lit "Alice@Example.com") (lit "42")
       fresh_machine).2.
Proof.
  destruct (keys_stay_lower_case fresh_machine (lit "Alice@Example.com")
              (lit "42") None) as [H _]; [by left| |exact H].
  split; no_keys.
Defined.

(** X26.  As long as the routing file is there and parses, no operation changes
    the object [DEFAULT_SETTINGS.topicMappings], and the file stays in
    order. *)
Theorem defaults_stay_pristine (m : machine) (k topicId : str)
    (t : option str) :
  dir_ok m → file_in_order m →
  (file_in_order (TopicManager.setTopicForEmail k topicId m).2
   ∧ defaults_topicMappings (TopicManager.setTopicForEmail k topicId m).2
     = defaults_topicMappings m)
  ∧ (file_in_order (TopicManager.removeTopicForEmail k m).2
     ∧ defaults_topicMappings (TopicManager.removeTopicForEmail k m).2
       = defaults_topicMappings m)
  ∧ (file_in_order (TopicManager.setDefaultTopic t m).2
     ∧ defaults_topicMappings (TopicManager.setDefaultTopic t m).2
       = defaults_topicMappings m).
Proof.
  intros Hdir Hfile. split; [|split].
  - destruct k as [|c k]; [done|].
    unfold TopicManager.setTopicForEmail. cbn [truthy negb].
    destruct (parseInt topicId) as [n|] eqn:Hparse; [|done].
    destruct (Z.ltb_spec 0 n) as [Hpos|]; [|done].
    destruct (setTopicForEmail_run m (c :: k) topicId n Hdir ltac:(done) Hparse Hpos)
      as (r & m' & Hrun & _ & _ & Hin & _).
    unfold TopicManager.setTopicForEmail in Hrun. cbn [truthy negb] in Hrun.
    rewrite Hparse in Hrun. apply Z.ltb_lt in Hpos. rewrite Hpos in Hrun.
    rewrite Hrun. cbn [snd]. by destruct (Hin Hfile) as (? & ? & _).
  - destruct k as [|c k]; [done|].
    destruct (removeTopicForEmail_run m (c :: k) Hdir ltac:(done))
      as (r & m' & Hrun & _ & Hin & _).
    rewrite Hrun. cbn [snd]. by destruct (Hin Hfile) as (? & ? & _).
  - assert (∀ t', match t with
                  | None => t' = None
                  | Some id => ∃ n, t' = Some n ∧ parseInt id = Some n ∧ (0 < n)%Z
                  end →
            file_in_order (TopicManager.setDefaultTopic t m).2
            ∧ defaults_topicMappings (TopicManager.setDefaultTopic t m).2
              = defaults_topicMappings m) as Hvalid.
    { intros t' Ht'.
      destruct (setDefaultTopic_run m t t' Hdir Ht')
        as (r & m' & Hrun & _ & _ & _ & Hin & Hd & _).
      rewrite Hrun. cbn [snd]. split; [by apply Hin|done]. }
    destruct t as [id|]; [|by apply (Hvalid None)].
    destruct (parseInt id) as [n|] eqn:Hparse.
    + destruct (Z.ltb_spec 0 n) as [Hpos|Hneg].
      * apply (Hvalid (Some n)). by exists n.
      * unfold TopicManager.setDefaultTopic. rewrite Hparse.
        by rewrite (proj2 (Z.ltb_ge 0 n)).
    + unfold TopicManager.setDefaultTopic. by rewrite Hparse.
Qed.

Lemma defaults_stay_pristine_witness :
  file_in_order
    (TopicManager.setTopicForEmail (lit "x@y.z") (lit "9") routed_machine).2
  ∧ defaults_topicMappings
      (TopicManager.setTopicForEmail (lit "x@y.z") (lit "9") routed_machine).2
    = ∅.
Proof.
  destruct (defaults_stay_pristine routed_machine (lit "x@y.z") (lit "9") None)
    as [H _]; [by left|by eexists|exact H].
Defined.

(** X27.  When the routing file is missing or cannot be parsed,
    [getTopicSettings] hands out [DEFAULT_SETTINGS.topicMappings] itself
    (the spread copies the reference), so [setTopicForEmail] writes the
    mapping into the defaults of the process.  When the file cannot be
    written either, the call reports [Failed to save settings] and leaves
    the disk as it was, and yet [getTopicForEmail] answers the new topic
    from then on. *)
Theorem failed_save_still_changes_routing (m : machine) (k topicId : str)
    (n : Z) :
  (∀ j, topic_settings_json m ≠ Holds j) → lower_case_store m →
  k ≠ [] → toLowerCase k ≠ lit "__proto__" → reads_as topicId n →
  ∃ r m', TopicManager.setTopicForEmail k topicId m = (Return r, m')
    ∧ defaults_topicMappings m' !! toLowerCase k = Some n
    ∧ (write_error m ≠ None →
       TopicManager.success r = false
       ∧ TopicManager.message r = lit "Failed to save settings"
       ∧ topic_settings_json m' = topic_settings_json m
       ∧ (TopicManager.getTopicForEmail k m').1 = Return (Some n)).
Proof.
  intros Hfile _ Hk Hproto [Hparse [Hpos _]].
  unfold TopicManager.setTopicForEmail, TopicManager.getTopicForEmail.
  rewrite Hparse. apply Z.ltb_lt in Hpos. rewrite Hpos.
  destruct k as [|c k]; [done|]. cbn [truthy negb].
  assert (∀ mp, getTopicForEmail
            {| defaultTopic := None;
               topicMappings := TopicManager.assign (toLowerCase (c :: k)) n mp |}
            (c :: k) = Some n) as Hget.
  { intros mp. rewrite assign_insert by done.
    unfold getTopicForEmail. cbn [truthy negb topicMappings].
    by rewrite lookup_insert_eq. }
  assert (∀ mp, TopicManager.assign (toLowerCase (c :: k)) n mp
                !! toLowerCase (c :: k) = Some n) as Hnew.
  { intros mp. rewrite assign_insert by done. apply lookup_insert_eq. }
  revert Hget Hnew. generalize (toLowerCase (c :: k)). intros key Hget Hnew.
  destruct m as [[] [err|] wl [|e|j] dm con]; run_topics;
    cbn -[getTopicForEmail];
    try (by destruct (Hfile j));
    eexists _, _; (split; [reflexivity|]); cbn -[getTopicForEmail];
    (split; [by rewrite Hnew|]); intros Hw; try done;
    repeat (split; [done|]); by rewrite Hget.
Qed.

Lemma failed_save_still_changes_routing_witness :
  ∃ r m',
    TopicManager.setTopicForEmail (lit "a@b.c") (lit "5") read_only_machine
    = (Return r, m')
    ∧ TopicManager.success r = false
    ∧ topic_settings_json m' = NoFile
    ∧ (TopicManager.getTopicForEmail (lit "a@b.c") m').1 = Return (Some 5%Z).
Proof.
  destruct (failed_save_still_changes_routing read_only_machine (lit "a@b.c")
              (lit "5") 5) as (r & m' & Hrun & _ & H).
  - by intros j.
  - split; no_keys.
  - done.
  - by vm_compute.
  - by split.
  - exists r, m'. split; [done|].
    destruct H as (Hfail & _ & Hfile & Hget); [done|]. by rewrite Hfile.
Defined.

(** ** Bot commands *)

Lemma add_run (text : str) (m : machine) :
  dir_ok m →
  let e := toLowerCase (part 1 (Bot.arguments text)) in
  ∃ rep m', Bot.add text m = (Return rep, m')
    ∧ (rep = Bot.Done true →
       admissible e ∧ entries m' = entries m ++ [e] ∧ write_error m' = None)
    ∧ (rep ≠ Bot.Done true → entries m' = entries m)
    ∧ dir_ok m'.
Proof.
  intros Hdir e. subst e. unfold Bot.add.
  case_bool_decide as Hlen.
  { exists Bot.Usage, m. by repeat split. }
  set (e := toLowerCase (part 1 (Bot.arguments text))).
  assert (toLowerCase e = e) as Hlow by apply toLowerCase_idemp.
  assert (admissible e →
            ∃ rep m',
              (result ← AllowList.addToWhitelist e;
               io_ret (Bot.Done (AllowList.success result))) m = (Return rep, m')
              ∧ (rep = Bot.Done true →
                 admissible e ∧ entries m' = entries m ++ [e]
                 ∧ write_error m' = None)
              ∧ (rep ≠ Bot.Done true → entries m' = entries m)
              ∧ dir_ok m') as Hadd.
  { intros ok.
    destruct (addToWhitelist_run e m Hdir) as (r & m' & Hrun & Hs & Hent & Hw & Hd).
    exists (Bot.Done (AllowList.success r)), m'.
    unfold mbind, IO_bind, io_ret. rewrite Hrun. split; [done|].
    destruct (AllowList.success r) eqn:Hr.
    - destruct (proj1 Hs eq_refl) as [_ Hwr].
      split; [intros _; by rewrite Hw|]. split; [done|]. by left.
    - split; [by intros [=]|]. split; [done|]. by left. }
  destruct (isDomainWildcard e) eqn:Hwild.
  - apply isDomainWildcard_spec in Hwild as [d Hd].
    assert (part 1 (split [AT] e) = d) as ->.
    { destruct Hd as [-> Hat]. change (lit "*@" ++ d) with ([42] ++ AT :: d).
      apply split_unit_domain; [apply star_has_no_at|done]. }
    destruct (truthy d) eqn:Ht; cbn [negb orb];
      [|exists (Bot.BadMask e), m; by repeat split].
    destruct (includes [46] d) eqn:Hdot; cbn [negb orb];
      [|exists (Bot.BadMask e), m; by repeat split].
    destruct (endsWith [46] d) eqn:Hend;
      [exists (Bot.BadMask e), m; by repeat split|].
    apply Hadd. split; [done|]. split.
    + apply split_unit_two. destruct Hd as [-> Hat]. exists [42], d.
      split; [done|]. split; [apply star_has_no_at|done].
    + left. exists d. split; [done|]. split; [by apply includes_unit|].
      intros Hl. apply endsWith_unit in Hl. congruence.
  - destruct (isValidEmail e) eqn:Hvalid; cbn [negb];
      [|exists (Bot.NotAnAddress e), m; by repeat split].
    apply isValidEmail_address_shape in Hvalid.
    apply Hadd. split; [done|]. split; [by apply address_shape_one_at|by right].
Qed.

(** X28.  Whatever its text, the [/add] command changes the allow-list at most
    by appending its lower-cased first argument, and only when that is a
    mask [*@domain] whose domain has a dot and does not end in one, or has
    the shape of an address; what it appends has exactly one ['@']. *)
Theorem add_command_stores_only_addresses (text : str) (m : machine) :
  dir_ok m →
  ∃ rep m', Bot.add text m = (Return rep, m')
    ∧ (rep = Bot.Done true →
       admissible (toLowerCase (part 1 (Bot.arguments text)))
       ∧ entries m' = entries m ++ [toLowerCase (part 1 (Bot.arguments text))])
    ∧ (rep ≠ Bot.Done true → entries m' = entries m).
Proof.
  intros Hdir.
  destruct (add_run text m Hdir) as (rep & m' & Hrun & Hok & Hfail & _).
  exists rep, m'. split; [done|]. split; [|done].
  intros Hrep. by destruct (Hok Hrep) as (? & ? & _).
Qed.

Lemma add_command_stores_only_addresses_witness :
  ∃ m', Bot.add (lit "/add Alice@Example.com") fresh_machine
        = (Return (Bot.Done true), m')
        ∧ entries m' = [lit "alice@example.com"].
Proof.
  destruct (add_command_stores_only_addresses (lit "/add Alice@Example.com")
              fresh_machine) as (rep & m' & Hrun & Hok & _); [by left|].
  assert (rep = Bot.Done true) as ->.
  { assert ((Bot.add (lit "/add Alice@Example.com") fresh_machine).1
            = Return (Bot.Done true)) as H by (by vm_compute).
    rewrite Hrun in H. by injection H. }
  exists m'. split; [done|]. by destruct (Hok eq_refl) as [_ ->].
Defined.






